(** * tiny_vfs: the mount/overlay resolution engine

    A shallow embedding of [tiny_vfs.h] (namespace [tinyvfs]): the path
    normaliser and the two resolver helpers of [tinyvfs::detail], and
    the [Vfs] facade over an abstract [Backend].

    Layout of the development:
    - [sv]      the handful of [std::string_view] operations the header uses;
    - [fs]      the part of [std::filesystem::path] the header relies on
                (root names, lexical normalisation, iteration, generic
                format), for the POSIX and the Windows pathname grammars;
    - [detail]  [normalize_virtual_path], [relative_to_mount],
                [child_mount_name], [to_os_path], [extension_matches];
    - [Blob], [Backend], [SubtreeBackend];
    - [Vfs]     the mount table and the overlay operations;
    - the properties of the specification, one theorem each;
    - further properties of the code, function by function. *)

From Stdlib Require Import String Ascii List Bool Arith Lia.
From Stdlib.Strings Require Import Byte.
From stdpp Require Import gmap strings list.

Open Scope string_scope.
Open Scope list_scope.

Set Warnings "-clear-no-such-hyp".

#[local] Arguments String.append !_ _ / : simpl nomatch.

(** ** [std::string_view] operations *)

Module sv.

(** [s.find(c)]: index of the first [c], [None] standing for [npos]. *)
Fixpoint find (c : ascii) (s : string) : option nat :=
  match s with
  | EmptyString => None
  | String a s' => if (a =? c)%char then Some 0 else option_map S (find c s')
  end.

Fixpoint take (n : nat) (s : string) : string :=
  match n, s with
  | S n', String a s' => String a (take n' s')
  | _, _ => EmptyString
  end.

Fixpoint drop (n : nat) (s : string) : string :=
  match n, s with
  | S n', String _ s' => drop n' s'
  | _, _ => s
  end.

(** [s.substr(pos, count)]; [count = None] is [npos], "to the end". *)
Definition substr (pos : nat) (count : option nat) (s : string) : string :=
  match count with
  | None => drop pos s
  | Some n => take n (drop pos s)
  end.

Fixpoint starts_with (p s : string) : bool :=
  match p, s with
  | EmptyString, _ => true
  | String a p', String b s' => (a =? b)%char && starts_with p' s'
  | String _ _, EmptyString => false
  end.

(** [s.compare(0, p.size(), p) == 0]: [p] is a prefix of [s]. *)
Definition compare0 (s p : string) : bool := starts_with p s.

(** [s[i] == c] for an index inside the view. *)
Definition at_is (s : string) (i : nat) (c : ascii) : bool :=
  match String.get i s with
  | Some a => (a =? c)%char
  | None => false
  end.

Definition empty (s : string) : bool :=
  match s with EmptyString => true | _ => false end.

(** [std::replace]-style rewriting of every character. *)
Fixpoint map (f : ascii -> ascii) (s : string) : string :=
  match s with
  | EmptyString => EmptyString
  | String a s' => String (f a) (map f s')
  end.

End sv.

(** ** [std::filesystem::path]

    The header stores nothing of its own about paths: it asks
    [fs::path] for [has_root_name], [lexically_normal], iteration and
    [generic_string].  That class belongs to the C++ library, not to
    the header; it is modelled here after ISO C++17 [fs.path.generic]
    and [fs.path.gen].  What a root name is and which characters
    separate directories is fixed by the platform: the POSIX grammar
    has no root names and the one separator [/]; the Windows grammar
    (the header is built with MSVC by [build_and_test.bat]) has drives
    and server names and takes the backslash too. *)

Module fs.

Inductive Platform := posix | windows.

Definition is_slash (pf : Platform) (c : ascii) : bool :=
  match pf with
  | posix => (c =? "/")%char
  | windows => (c =? "/")%char || (c =? "\")%char
  end.

Definition preferred_separator (pf : Platform) : ascii :=
  match pf with posix => "/"%char | windows => "\"%char end.

Definition is_drive_letter (c : ascii) : bool :=
  let n := nat_of_ascii c in
  ((65 <=? n)%nat && (n <=? 90)%nat) || ((97 <=? n)%nat && (n <=? 122)%nat).

(** Offset of the first directory separator ([length s] when none). *)
Fixpoint find_slash (pf : Platform) (s : string) : nat :=
  match s with
  | EmptyString => 0
  | String c s' => if is_slash pf c then 0 else S (find_slash pf s')
  end.

(** Length of the root name.  POSIX pathnames have none.  On Windows
    (the MSVC parser): a drive [X:], the prefixes [\\?\], [\\.\] and
    [\??\], and a server name [\\server]. *)
Definition root_name_end (pf : Platform) (s : string) : nat :=
  match pf with
  | posix => 0
  | windows =>
      match s with
      | String a (String b r) =>
          if is_drive_letter a && (b =? ":")%char then 2
          else if negb (is_slash windows a) then 0
          else
            let special :=
              match r with
              | String c (String d r') =>
                  is_slash windows d
                  && match r' with
                     | EmptyString => true
                     | String e _ => negb (is_slash windows e)
                     end
                  && ((is_slash windows b
                       && ((c =? "?")%char || (c =? ".")%char))
                      || ((b =? "?")%char && (c =? "?")%char))
              | _ => false
              end in
            if special then 3
            else
              match r with
              | String c r3 =>
                  if is_slash windows b && negb (is_slash windows c)
                  then 3 + find_slash windows r3
                  else 0
              | EmptyString => 0
              end
      | _ => 0
      end
  end.

(** A path holds its pathname in native format. *)
Definition path := string.

Definition root_name (pf : Platform) (p : path) : string :=
  sv.take (root_name_end pf p) p.

Definition has_root_name (pf : Platform) (p : path) : bool :=
  negb (sv.empty (root_name pf p)).

Definition has_root_directory (pf : Platform) (p : path) : bool :=
  match sv.drop (root_name_end pf p) p with
  | String c _ => is_slash pf c
  | EmptyString => false
  end.

(** The pieces between separator characters, empty ones included. *)
Fixpoint segments (pf : Platform) (s : string) : list string :=
  match s with
  | EmptyString => [EmptyString]
  | String c s' =>
      if is_slash pf c then EmptyString :: segments pf s'
      else match segments pf s' with
           | seg :: rest => String c seg :: rest
           | [] => [String c EmptyString]
           end
  end.

(** Each piece with "a separator follows it". *)
Fixpoint flag_last (l : list string) : list (string * bool) :=
  match l with
  | [] => []
  | [x] => [(x, false)]
  | x :: l' => (x, true) :: flag_last l'
  end.

(** The filenames of the relative part, each with whether a
    directory-separator (one or more slashes) follows it. *)
Definition items (pf : Platform) (p : path) : list (string * bool) :=
  List.filter (fun it => negb (sv.empty (fst it)))
    (flag_last (segments pf (sv.drop (root_name_end pf p) p))).

Definition is_dot (it : string * bool) : bool := (fst it =? ".")%string.
Definition is_dotdot (it : string * bool) : bool := (fst it =? "..")%string.

(** Step 5 of normalisation: a filename that is not dot-dot, followed
    by dot-dot, goes away together with it.  [stack] holds the kept
    items, last one first. *)
Fixpoint collapse (stack its : list (string * bool)) : list (string * bool) :=
  match its with
  | [] => rev stack
  | it :: r =>
      if is_dotdot it then
        match stack with
        | top :: stack' =>
            if is_dotdot top then collapse (it :: stack) r
            else collapse stack' r
        | [] => collapse [it] r
        end
      else collapse (it :: stack) r
  end.

(** Step 7: no separator after a final dot-dot. *)
Fixpoint trim_dotdot (its : list (string * bool)) : list (string * bool) :=
  match its with
  | [] => []
  | [it] => if is_dotdot it then [(fst it, false)] else [it]
  | it :: r => it :: trim_dotdot r
  end.

Definition to_preferred (pf : Platform) (s : string) : string :=
  sv.map (fun c => if is_slash pf c then preferred_separator pf else c) s.

Fixpoint render (sep : ascii) (its : list (string * bool)) : string :=
  match its with
  | [] => EmptyString
  | (name, follows) :: r =>
      name +:+ (if follows then String sep (render sep r) else render sep r)
  end.

(** [p.lexically_normal()], the eight steps of [fs.path.generic]:
    1 an empty path stays empty; 2, 3 the root name and every
    separator are written with the preferred separator; 4 dot
    filenames go; 5 a filename followed by dot-dot goes with it;
    6 after a root directory the remaining dot-dots go; 7 no separator
    after a final dot-dot; 8 a path left empty becomes dot.  The result
    is a path again: its text is parsed anew by whoever asks. *)
Definition lexically_normal (pf : Platform) (p : path) : path :=
  if sv.empty p then p
  else
    let rooted := has_root_directory pf p in
    let its := List.filter (fun it => negb (is_dot it)) (items pf p) in
    let its := collapse [] its in
    let its :=
      if rooted then List.filter (fun it => negb (is_dotdot it)) its
      else its in
    let its := trim_dotdot its in
    let text :=
      to_preferred pf (root_name pf p)
      +:+ (if rooted then String (preferred_separator pf) EmptyString
           else EmptyString)
      +:+ render (preferred_separator pf) its in
    if sv.empty text then "." else text.

(** What iterating a path yields: root name, root directory, the
    filenames, and an empty filename after a trailing separator. *)
Definition elements (pf : Platform) (p : path) : list string :=
  let its := items pf p in
  (if has_root_name pf p then [root_name pf p] else [])
  ++ (if has_root_directory pf p
      then [String (preferred_separator pf) EmptyString] else [])
  ++ map fst its
  ++ match last its with
     | Some (_, true) => [EmptyString]
     | _ => []
     end.

(** Generic format: every separator written as a slash. *)
Definition generic_string (pf : Platform) (p : path) : string :=
  sv.map (fun c => if is_slash pf c then "/"%char else c) p.

(** [p.is_absolute()]: on POSIX a root directory; on Windows a root
    name and a root directory. *)
Definition is_absolute (pf : Platform) (p : path) : bool :=
  match pf with
  | posix => has_root_directory pf p
  | windows => has_root_name pf p && has_root_directory pf p
  end.

(** [p.has_filename()]: the relative part does not end in a
    separator, and is not empty. *)
Definition has_filename (pf : Platform) (p : path) : bool :=
  match last (items pf p) with
  | Some (_, false) => true
  | _ => false
  end.

(** [p / q], [fs.path.append]: an absolute [q], or one with another
    root name, replaces [p]; a [q] with a root directory keeps the
    root name of [p] only; otherwise [q] goes after [p], with a
    separator when [p] ends in a filename. *)
Definition append (pf : Platform) (p q : path) : path :=
  if is_absolute pf q
     || (has_root_name pf q
         && negb (root_name pf q =? root_name pf p)%string)
  then q
  else
    let q_text := sv.drop (root_name_end pf q) q in
    if has_root_directory pf q then root_name pf p +:+ q_text
    else if (negb (has_root_directory pf p) && is_absolute pf p)
            || has_filename pf p
    then p +:+ String (preferred_separator pf) q_text
    else p +:+ q_text.

End fs.

(** ** [tinyvfs::detail] *)

Module detail.

(** [while (!s.empty() && s.front() == '/') s.erase(s.begin());] *)
Fixpoint erase_front_slashes (s : string) : string :=
  match s with
  | String c s' => if (c =? "/")%char then erase_front_slashes s' else s
  | EmptyString => EmptyString
  end.

(** [while (!s.empty() && s.back() == '/') s.pop_back();] *)
Fixpoint pop_back_slashes (s : string) : string :=
  match s with
  | EmptyString => EmptyString
  | String c s' =>
      let r := pop_back_slashes s' in
      if (c =? "/")%char && sv.empty r then EmptyString else String c r
  end.

(** [normalize_virtual_path(input, out)]: [Some out] for [true]. *)
Definition normalize_virtual_path (pf : fs.Platform) (input : string)
  : option string :=
  let p : fs.path := input in
  if fs.has_root_name pf p then None
  else
    let p := fs.lexically_normal pf p in
    if existsb (fun part => (part =? "..")%string) (fs.elements pf p) then None
    else
      let s := fs.generic_string pf p in
      if (s =? ".")%string || (s =? "/")%string then Some EmptyString
      else
        let s := erase_front_slashes s in
        let s := pop_back_slashes s in
        let s := if (s =? ".")%string then EmptyString else s in
        Some s.

(** [relative_to_mount(full, mount, out)] *)
Definition relative_to_mount (full mount : string) : option string :=
  if sv.empty mount then Some full
  else if (full =? mount)%string then Some EmptyString
  else if (String.length mount <? String.length full)%nat
          && sv.compare0 full mount
          && sv.at_is full (String.length mount) "/"
  then Some (sv.substr (String.length mount + 1) None full)
  else None.

(** [child_mount_name(parent, mount, out)] *)
Definition child_mount_name (parent mount : string) : option string :=
  if sv.empty mount then None
  else if sv.empty parent then
    let split := sv.find "/" mount in
    Some (sv.substr 0 split mount)
  else if (String.length mount <=? String.length parent)%nat then None
  else if negb (sv.compare0 mount parent)
          || negb (sv.at_is mount (String.length parent) "/")
  then None
  else
    let rest := sv.substr (String.length parent + 1) None mount in
    let split := sv.find "/" rest in
    Some (sv.substr 0 split rest).


Definition front_is (s : string) (c : ascii) : bool :=
  match s with
  | String a _ => (a =? c)%char
  | EmptyString => false
  end.

(** The loop of [extension_matches] over the entries. *)
Fixpoint extension_matches_loop (ext : string) (entries : list string)
    : bool :=
  match entries with
  | [] => false
  | entry :: entries' =>
      if sv.empty entry then extension_matches_loop ext entries'
      else if front_is entry "." then
        if (ext =? entry)%string then true
        else extension_matches_loop ext entries'
      else
        if (String.length ext =? String.length entry + 1)%nat
           && front_is ext "."
           && (sv.substr 1 None ext =? entry)%string
        then true
        else extension_matches_loop ext entries'
  end.

(** [extension_matches(ext, extensions)] *)
Definition extension_matches (ext : string) (extensions : list string)
    : bool :=
  match extensions with
  | [] => true
  | _ :: _ => extension_matches_loop ext extensions
  end.

End detail.

(** ** Results, blobs and the backend interface *)

Inductive Result := ok | not_found | io_error | not_supported | invalid_path.

Definition Result_eqb (a b : Result) : bool :=
  match a, b with
  | ok, ok | not_found, not_found | io_error, io_error
  | not_supported, not_supported | invalid_path, invalid_path => true
  | _, _ => false
  end.

Record Blob := { bytes : list byte }.

(** The members of [struct Blob]. *)
Module Blob.

Definition empty (b : Blob) : bool :=
  match bytes b with [] => true | _ :: _ => false end.

Definition size (b : Blob) : nat := List.length (bytes b).

(** The bytes read as characters. *)
Definition as_string_view (b : Blob) : string :=
  string_of_list_byte (bytes b).

(** [text.resize(n)] of a fresh string: [n] NUL characters. *)
Fixpoint resize (n : nat) : string :=
  match n with
  | O => EmptyString
  | S n' => String Ascii.zero (resize n')
  end.

(** [memcpy(text.data(), src, src.size())]: the first characters of
    [text] overwritten. *)
Fixpoint memcpy (text : string) (src : list byte) {struct src}
    : string :=
  match src, text with
  | b :: src', String _ text' => String (ascii_of_byte b) (memcpy text' src')
  | _, _ => text
  end.

(** [text.back() = c] *)
Fixpoint set_back (text : string) (c : ascii) : string :=
  match text with
  | EmptyString => EmptyString
  | String a EmptyString => String c EmptyString
  | String a text' => String a (set_back text' c)
  end.

Definition to_string (b : Blob) (append_null : bool) : string :=
  let text := resize (size b + (if append_null then 1 else 0)) in
  let text := if negb (empty b) then memcpy text (bytes b) else text in
  if append_null then set_back text Ascii.zero else text.

End Blob.

(** [class Backend]: six virtual operations.  A backend acts on the
    state of the backing stores, [World]; the queries read it,
    [write_file] may change it.  Enumeration hands names to a callback:
    an operation returns the names it passed, in order, with its
    result. *)
Module Backend.
Record t {World : Type} := {
  exists_file : string -> World -> bool;
  exists_dir : string -> World -> bool;
  read_file : string -> World -> option Blob;
  write_file : string -> list byte -> World -> Result * World;
  list_files : string -> list string -> bool -> World -> Result * list string;
  list_dirs : string -> bool -> World -> Result * list string
}.
Arguments t : clear implicits.
End Backend.

(** [struct MountPoint] *)
Module MountPoint.
Record t {World : Type} := {
  mount : string;
  backend : Backend.t World
}.
Arguments t : clear implicits.
End MountPoint.

(** [class SubtreeBackend]: a backend seen through a base directory. *)
Module SubtreeBackend.

(** [map(path)], on the member [base_]. *)
Definition map (pf : fs.Platform) (base_ : fs.path) (path : string)
    : string :=
  if sv.empty base_
  then fs.generic_string pf (fs.lexically_normal pf path)
  else if sv.empty path then fs.generic_string pf base_
  else
    let combined := fs.append pf base_ path in
    fs.generic_string pf (fs.lexically_normal pf combined).

(** The constructor keeps [base.lexically_normal()]; every operation
    hands the mapped path to the wrapped backend. *)
Definition make {World : Type} (pf : fs.Platform)
    (backend : Backend.t World) (base : fs.path) : Backend.t World :=
  let base_ := fs.lexically_normal pf base in
  {| Backend.exists_file path :=
       Backend.exists_file backend (map pf base_ path);
     Backend.exists_dir path :=
       Backend.exists_dir backend (map pf base_ path);
     Backend.read_file path :=
       Backend.read_file backend (map pf base_ path);
     Backend.write_file path :=
       Backend.write_file backend (map pf base_ path);
     Backend.list_files path :=
       Backend.list_files backend (map pf base_ path);
     Backend.list_dirs path :=
       Backend.list_dirs backend (map pf base_ path) |}.

End SubtreeBackend.

(** ** [class Vfs]

    [mounts_] is the vector of mount points, oldest first; the
    operations that change it return the new vector. *)
Module Vfs.
Section Facade.
Context {World : Type}.
Variable pf : fs.Platform.

Local Abbreviation MountPoint := (MountPoint.t World).
Local Abbreviation Backend := (Backend.t World).

(** A null [shared_ptr] is [None]. *)
Definition mount (path : string) (backend : option Backend)
    (mounts_ : list MountPoint) : bool * list MountPoint :=
  match backend with
  | None => (false, mounts_)
  | Some b =>
      match detail.normalize_virtual_path pf path with
      | None => (false, mounts_)
      | Some normalized =>
          (true, mounts_ ++ [{| MountPoint.mount := normalized;
                                MountPoint.backend := b |}])
      end
  end.

(** The loop of [unmount] from index [i] on: [rest] is [mounts_[i..]].
    Erasing at [i] keeps [i] and shortens the tail; [++i] keeps the
    entry. *)
Fixpoint unmount_loop (normalized : string) (rest : list MountPoint)
    (removed : bool) : list MountPoint * bool :=
  match rest with
  | [] => ([], removed)
  | m :: rest' =>
      if (MountPoint.mount m =? normalized)%string
      then unmount_loop normalized rest' true
      else
        let '(kept, removed') := unmount_loop normalized rest' removed in
        (m :: kept, removed')
  end.

Definition unmount (path : string) (mounts_ : list MountPoint)
    : bool * list MountPoint :=
  match detail.normalize_virtual_path pf path with
  | None => (false, mounts_)
  | Some normalized =>
      let '(kept, removed) := unmount_loop normalized mounts_ false in
      (removed, kept)
  end.

(** The loops over [mounts_.rbegin() .. mounts_.rend()] recurse on the
    reversed vector. *)
Fixpoint exists_file_loop (normalized : string) (its : list MountPoint)
    (w : World) : bool :=
  match its with
  | [] => false
  | it :: its' =>
      match detail.relative_to_mount normalized (MountPoint.mount it) with
      | None => exists_file_loop normalized its' w
      | Some relative =>
          if Backend.exists_file (MountPoint.backend it) relative w then true
          else exists_file_loop normalized its' w
      end
  end.

Definition exists_file (path : string) (mounts_ : list MountPoint)
    (w : World) : bool :=
  match detail.normalize_virtual_path pf path with
  | None => false
  | Some normalized => exists_file_loop normalized (rev mounts_) w
  end.

(** First loop of [exists_dir]: a mount at or below [normalized]. *)
Fixpoint implied_dir (normalized : string) (ms : list MountPoint) : bool :=
  match ms with
  | [] => false
  | m :: ms' =>
      let mp := MountPoint.mount m in
      if (mp =? normalized)%string then true
      else if (String.length normalized <? String.length mp)%nat
              && sv.compare0 mp normalized
              && sv.at_is mp (String.length normalized) "/"
      then true
      else implied_dir normalized ms'
  end.

Fixpoint exists_dir_loop (normalized : string) (its : list MountPoint)
    (w : World) : bool :=
  match its with
  | [] => false
  | it :: its' =>
      match detail.relative_to_mount normalized (MountPoint.mount it) with
      | None => exists_dir_loop normalized its' w
      | Some relative =>
          if Backend.exists_dir (MountPoint.backend it) relative w then true
          else exists_dir_loop normalized its' w
      end
  end.

Definition exists_dir (path : string) (mounts_ : list MountPoint)
    (w : World) : bool :=
  match detail.normalize_virtual_path pf path with
  | None => false
  | Some normalized =>
      if sv.empty normalized
      then negb (match mounts_ with [] => true | _ :: _ => false end)
      else if implied_dir normalized mounts_ then true
      else exists_dir_loop normalized (rev mounts_) w
  end.

Fixpoint read_file_loop (normalized : string) (its : list MountPoint)
    (w : World) : option Blob :=
  match its with
  | [] => None
  | it :: its' =>
      match detail.relative_to_mount normalized (MountPoint.mount it) with
      | None => read_file_loop normalized its' w
      | Some relative =>
          match Backend.read_file (MountPoint.backend it) relative w with
          | Some data => Some data
          | None => read_file_loop normalized its' w
          end
      end
  end.

Definition read_file (path : string) (mounts_ : list MountPoint)
    (w : World) : option Blob :=
  match detail.normalize_virtual_path pf path with
  | None => None
  | Some normalized => read_file_loop normalized (rev mounts_) w
  end.

(** The loop of [write_file] with its two locals. *)
Fixpoint write_file_loop (normalized : string) (data : list byte)
    (its : list MountPoint) (matched : bool) (last_result : Result)
    (w : World) : Result * World :=
  match its with
  | [] => (if matched then last_result else not_found, w)
  | it :: its' =>
      match detail.relative_to_mount normalized (MountPoint.mount it) with
      | None => write_file_loop normalized data its' matched last_result w
      | Some relative =>
          let '(result, w') :=
            Backend.write_file (MountPoint.backend it) relative data w in
          if Result_eqb result ok || Result_eqb result io_error
          then (result, w')
          else
            write_file_loop normalized data its' true
              (if negb (Result_eqb result not_supported)
               then result else last_result) w'
      end
  end.

Definition write_file (path : string) (data : list byte)
    (mounts_ : list MountPoint) (w : World) : Result * World :=
  match detail.normalize_virtual_path pf path with
  | None => (invalid_path, w)
  | Some normalized =>
      write_file_loop normalized data (rev mounts_) false not_supported w
  end.

(** The [emit] lambda of the two listings.  Its captured state is the
    set [seen] and whatever the caller's callback has received so
    far: the names, in call order. *)
Definition emit (allow_duplicates : bool) (name : string)
    (st : gset string * list string) : gset string * list string :=
  let '(seen, calls) := st in
  if allow_duplicates then (seen, calls ++ [name])
  else if bool_decide (name ∈ seen) then (seen, calls)
  else ({[name]} ∪ seen, calls ++ [name]).

(** A backend enumerating into [emit]. *)
Definition emit_all (allow_duplicates : bool) (names : list string)
    (st : gset string * list string) : gset string * list string :=
  foldl (fun st name => emit allow_duplicates name st) st names.

Fixpoint list_files_loop (normalized : string) (extensions : list string)
    (allow_duplicates : bool) (its : list MountPoint) (w : World)
    (matched : bool) (st : gset string * list string)
    : Result * list string :=
  match its with
  | [] => (if matched then ok else not_found, snd st)
  | it :: its' =>
      match detail.relative_to_mount normalized (MountPoint.mount it) with
      | None =>
          list_files_loop normalized extensions allow_duplicates its' w
            matched st
      | Some relative =>
          let '(result, names) :=
            Backend.list_files (MountPoint.backend it) relative extensions
              true w in
          let st' := emit_all allow_duplicates names st in
          if Result_eqb result io_error then (result, snd st')
          else
            list_files_loop normalized extensions allow_duplicates its' w
              true st'
      end
  end.

(** [list_files]: the result and the names the callback received. *)
Definition list_files (path : string) (extensions : list string)
    (allow_duplicates : bool) (mounts_ : list MountPoint) (w : World)
    : Result * list string :=
  match detail.normalize_virtual_path pf path with
  | None => (invalid_path, [])
  | Some normalized =>
      list_files_loop normalized extensions allow_duplicates (rev mounts_)
        w false (∅, [])
  end.

(** First loop of [list_dirs]: the mount points below [normalized]. *)
Fixpoint emit_children (normalized : string) (allow_duplicates : bool)
    (ms : list MountPoint) (st : gset string * list string)
    : gset string * list string :=
  match ms with
  | [] => st
  | m :: ms' =>
      match detail.child_mount_name normalized (MountPoint.mount m) with
      | Some child =>
          emit_children normalized allow_duplicates ms'
            (emit allow_duplicates child st)
      | None => emit_children normalized allow_duplicates ms' st
      end
  end.

Fixpoint list_dirs_loop (normalized : string) (allow_duplicates : bool)
    (its : list MountPoint) (w : World) (matched : bool)
    (st : gset string * list string) : Result * list string :=
  match its with
  | [] =>
      (if matched || negb (bool_decide (fst st = ∅)) then ok else not_found,
       snd st)
  | it :: its' =>
      match detail.relative_to_mount normalized (MountPoint.mount it) with
      | None => list_dirs_loop normalized allow_duplicates its' w matched st
      | Some relative =>
          let '(result, names) :=
            Backend.list_dirs (MountPoint.backend it) relative true w in
          let st' := emit_all allow_duplicates names st in
          if Result_eqb result io_error then (result, snd st')
          else list_dirs_loop normalized allow_duplicates its' w true st'
      end
  end.

Definition list_dirs (path : string) (allow_duplicates : bool)
    (mounts_ : list MountPoint) (w : World) : Result * list string :=
  match detail.normalize_virtual_path pf path with
  | None => (invalid_path, [])
  | Some normalized =>
      list_dirs_loop normalized allow_duplicates (rev mounts_) w false
        (emit_children normalized allow_duplicates mounts_ (∅, []))
  end.

(** [mount_disk(path, root)].  [DiskBackend] does the file-system
    calls; it is the parameter [disk]. *)
Definition mount_disk (disk : Backend) (path : string) (root : fs.path)
    (mounts_ : list MountPoint) : bool * list MountPoint :=
  let backend := SubtreeBackend.make pf disk root in
  mount path (Some backend) mounts_.

Definition read_text (path : string) (append_null : bool)
    (mounts_ : list MountPoint) (w : World) : option string :=
  match read_file path mounts_ w with
  | None => None
  | Some blob => Some (Blob.to_string blob append_null)
  end.

End Facade.
End Vfs.

(** ** Backends for the examples

    A backend with canned content.  The world it acts on is the log of
    the writes that were accepted. *)

Record Canned := {
  c_files : list (string * list byte);
  c_dirs : list string;
  c_write : Result;
  c_list : Result
}.

Fixpoint assoc (key : string) (l : list (string * list byte))
    : option (list byte) :=
  match l with
  | [] => None
  | (k, v) :: l' => if (k =? key)%string then Some v else assoc key l'
  end.

Definition CannedBackend (c : Canned)
    : Backend.t (list (string * list byte)) :=
  {| Backend.exists_file p _ := bool_decide (p ∈ (c_files c).*1);
     Backend.exists_dir p _ := bool_decide (p ∈ c_dirs c);
     Backend.read_file p _ := Build_Blob <$> assoc p (c_files c);
     Backend.write_file p data w :=
       (c_write c, if Result_eqb (c_write c) ok then w ++ [(p, data)] else w);
     Backend.list_files p _ _ _ :=
       (c_list c, if sv.empty p then (c_files c).*1 else []);
     Backend.list_dirs p _ _ :=
       (c_list c, if sv.empty p then c_dirs c else []) |}.

Definition mount_at (prefix : string) (c : Canned)
    : MountPoint.t (list (string * list byte)) :=
  {| MountPoint.mount := prefix; MountPoint.backend := CannedBackend c |}.

Definition text (s : string) : list byte := list_byte_of_string s.

Definition empty_store : Canned :=
  {| c_files := []; c_dirs := []; c_write := not_supported; c_list := ok |}.

Definition base : Canned :=
  {| c_files := [("hello.txt", text "A")]; c_dirs := ["textures"];
     c_write := ok; c_list := ok |}.

Definition overlay : Canned :=
  {| c_files := [("hello.txt", text "B"); ("overlay.txt", text "C")];
     c_dirs := []; c_write := not_supported; c_list := ok |}.

Definition table : list (MountPoint.t (list (string * list byte))) :=
  [mount_at "content" base; mount_at "content" overlay;
   mount_at "shaders" empty_store].

(** A disk as the subtree backend sees it: absolute paths. *)
Definition disk : Canned :=
  {| c_files := [("/srv/data/hello.txt", text "D")]; c_dirs := [];
     c_write := not_supported; c_list := ok |}.

(** ** Notions the properties are stated with *)

Section Notions.
Context {World : Type}.

(** Mount [m] serves [normalized] and its backend returns [blob]. *)
Definition read_hit (normalized : string) (w : World)
    (m : MountPoint.t World) (blob : Blob) : Prop :=
  exists relative,
    detail.relative_to_mount normalized (MountPoint.mount m) = Some relative
    /\ Backend.read_file (MountPoint.backend m) relative w = Some blob.

(** Mount [m] does not serve [normalized], or its backend has no such
    file. *)
Definition read_miss (normalized : string) (w : World)
    (m : MountPoint.t World) : Prop :=
  forall relative,
    detail.relative_to_mount normalized (MountPoint.mount m) = Some relative ->
    Backend.read_file (MountPoint.backend m) relative w = None.

Definition no_match (normalized : string) (m : MountPoint.t World) : Prop :=
  detail.relative_to_mount normalized (MountPoint.mount m) = None.

(** [write_file] walks [its] (newest first) from world [w] to [w'], and
    every mount on the way that serves [normalized] answers with a
    result in [P]. *)
Inductive write_passes (P : Result -> Prop) (normalized : string)
    (data : list byte)
    : list (MountPoint.t World) -> World -> World -> Prop :=
| passes_nil w : write_passes P normalized data [] w w
| passes_no_match it its w w' :
    no_match normalized it ->
    write_passes P normalized data its w w' ->
    write_passes P normalized data (it :: its) w w'
| passes_answer it its relative result w w1 w' :
    detail.relative_to_mount normalized (MountPoint.mount it) = Some relative ->
    Backend.write_file (MountPoint.backend it) relative data w = (result, w1) ->
    P result ->
    write_passes P normalized data its w1 w' ->
    write_passes P normalized data (it :: its) w w'.

Definition soft (r : Result) : Prop := r <> ok /\ r <> io_error.

(** [names] without the names in [seen] and without repeats: of each
    name the first occurrence stays. *)
Fixpoint first_occurrences (seen : gset string) (names : list string)
    : list string :=
  match names with
  | [] => []
  | x :: names' =>
      if bool_decide (x ∈ seen) then first_occurrences seen names'
      else x :: first_occurrences ({[x]} ∪ seen) names'
  end.

(** An enumeration request as a listing loop sends it to a mount:
    [list_files] or [list_dirs] of its backend on the relative path. *)
Definition files_request (extensions : list string) (w : World)
    (m : MountPoint.t World) (relative : string) : Result * list string :=
  Backend.list_files (MountPoint.backend m) relative extensions true w.

Definition dirs_request (w : World)
    (m : MountPoint.t World) (relative : string) : Result * list string :=
  Backend.list_dirs (MountPoint.backend m) relative true w.

(** Mount [m] serves [normalized] and answers the request with result
    [r] after handing over [names]. *)
Definition answers
    (request : MountPoint.t World -> string -> Result * list string)
    (normalized : string) (m : MountPoint.t World)
    (r : Result) (names : list string) : Prop :=
  exists relative,
    detail.relative_to_mount normalized (MountPoint.mount m) = Some relative
    /\ request m relative = (r, names).

(** No request to [m] for [normalized] ends in [io_error]. *)
Definition sound
    (request : MountPoint.t World -> string -> Result * list string)
    (normalized : string) (m : MountPoint.t World) : Prop :=
  forall r names, answers request normalized m r names -> r <> io_error.

(** The names the serving mounts of [its] hand over, in the order of
    [its], up to and with those of the first mount that fails. *)
Fixpoint reported
    (request : MountPoint.t World -> string -> Result * list string)
    (normalized : string) (its : list (MountPoint.t World)) : list string :=
  match its with
  | [] => []
  | it :: its' =>
      match detail.relative_to_mount normalized (MountPoint.mount it) with
      | None => reported request normalized its'
      | Some relative =>
          let '(r, names) := request it relative in
          if Result_eqb r io_error then names
          else names ++ reported request normalized its'
      end
  end.

Definition serves (normalized : string) (m : MountPoint.t World) : bool :=
  match detail.relative_to_mount normalized (MountPoint.mount m) with
  | Some _ => true
  | None => false
  end.

Definition fails
    (request : MountPoint.t World -> string -> Result * list string)
    (normalized : string) (m : MountPoint.t World) : bool :=
  match detail.relative_to_mount normalized (MountPoint.mount m) with
  | Some relative => Result_eqb (fst (request m relative)) io_error
  | None => false
  end.

(** The synthetic names of [list_dirs]: the child of [normalized] on
    the way to each mount below it, in table order. *)
Definition children (normalized : string) (ms : list (MountPoint.t World))
    : list string :=
  omap (fun m => detail.child_mount_name normalized (MountPoint.mount m)) ms.

(** [mount] lies strictly below [parent], and [segment] is its first
    path segment under [parent]. *)
Definition next_segment_below (parent mount segment : string) : Prop :=
  sv.find "/" segment = None
  /\ exists rest,
      (rest = "" \/ exists rest', rest = String "/" rest')
      /\ if sv.empty parent then mount = segment +:+ rest /\ mount <> ""
         else mount = parent +:+ "/" +:+ segment +:+ rest.

End Notions.

(** ** Notions for pathnames *)

(** [names] walked from depth [depth] below the virtual root: does a
    dot-dot step above the root?  Dot stays in place, dot-dot goes up,
    any other name goes down. *)
Fixpoint escapes_root (depth : nat) (names : list string) : bool :=
  match names with
  | [] => false
  | name :: names' =>
      if (name =? ".")%string then escapes_root depth names'
      else if (name =? "..")%string then
        match depth with
        | O => true
        | S depth' => escapes_root depth' names'
        end
      else escapes_root (S depth) names'
  end.

Fixpoint slash_free (pf : fs.Platform) (s : string) : bool :=
  match s with
  | EmptyString => true
  | String c s' => negb (fs.is_slash pf c) && slash_free pf s'
  end.

(** A filename: not empty, no separator in it. *)
Definition filename (pf : fs.Platform) (it : string * bool) : Prop :=
  fst it <> "" /\ slash_free pf (fst it) = true.

(** Every item but the last is followed by a separator. *)
Fixpoint separated (its : list (string * bool)) : Prop :=
  match its with
  | [] => True
  | it :: r =>
      match r with
      | [] => True
      | _ :: _ => snd it = true /\ separated r
      end
  end.

(** On the stack of [fs.collapse] the dot-dots lie at the bottom. *)
Fixpoint dotdots_below (stack : list (string * bool)) : Prop :=
  match stack with
  | [] => True
  | top :: stack' =>
      if fs.is_dotdot top then Forall (fun it => fs.is_dotdot it = true) stack'
      else dotdots_below stack'
  end.

(** The items [fs.lexically_normal] renders: steps 4 to 7. *)
Definition normal_items (pf : fs.Platform) (input : string)
    : list (string * bool) :=
  let its := List.filter (fun it => negb (fs.is_dot it)) (fs.items pf input) in
  let its := fs.collapse [] its in
  let its := if fs.has_root_directory pf input
             then List.filter (fun it => negb (fs.is_dotdot it)) its
             else its in
  fs.trim_dotdot its.

(** What a name of a normalised path is. *)
Definition plain_name (pf : fs.Platform) (name : string) : Prop :=
  name <> "" /\ slash_free pf name = true
  /\ (name =? ".")%string = false /\ (name =? "..")%string = false.

(** Windows separators written as the preferred one. *)
Definition to_backslash (c : ascii) : ascii :=
  if fs.is_slash fs.windows c then "\"%char else c.

(** An extension token as [extension_matches] reads it: with its
    leading dot. *)
Definition with_dot (entry : string) : string :=
  if detail.front_is entry "." then entry else String "." entry.

(** The path made of [names], joined by single slashes. *)
Definition normal_path (names : list string) : string :=
  fs.render "/" (fs.flag_last names).

(** A path is normalised: plain names joined by single slashes. *)
Definition normalised (pf : fs.Platform) (p : string) : Prop :=
  exists names, Forall (plain_name pf) names /\ p = normal_path names.

(** [plain_name], decided. *)
Definition plain_nameb (pf : fs.Platform) (name : string) : bool :=
  negb (sv.empty name) && slash_free pf name
  && negb (name =? ".")%string && negb (name =? "..")%string.

(** A POSIX path in normal form below a root: an optional root
    directory, then plain names joined by single slashes. *)
Definition rooted_path (rooted : bool) (names : list string) : string :=
  (if rooted then "/" else "") +:+ normal_path names.


(** ** Strings *)

Section Strings.

Lemma length_app (s t : string) :
  String.length (s +:+ t) = String.length s + String.length t.
Proof. induction s as [|a s IH]; simpl; [done | by rewrite IH]. Qed.

Lemma app_empty_r (s : string) : s +:+ "" = s.
Proof. induction s as [|a s IH]; simpl; [done | by rewrite IH]. Qed.

Lemma app_assoc_s (s t u : string) : (s +:+ t) +:+ u = s +:+ (t +:+ u).
Proof. induction s as [|a s IH]; simpl; [done | by rewrite IH]. Qed.

Lemma starts_with_app (p r : string) : sv.starts_with p (p +:+ r) = true.
Proof.
  induction p as [|a p IH]; simpl; [done |].
  by rewrite Ascii.eqb_refl.
Qed.

Lemma starts_with_split (p s : string) :
  sv.starts_with p s = true -> exists r, s = p +:+ r.
Proof.
  revert s. induction p as [|a p IH]; intros s H; simpl in *.
  - by exists s.
  - destruct s as [|b s]; [done |].
    apply andb_true_iff in H as [Hab H]. apply Ascii.eqb_eq in Hab as ->.
    destruct (IH _ H) as [r ->]. by exists r.
Qed.

Lemma at_is_app (p r : string) (c d : ascii) :
  sv.at_is (p +:+ String c r) (String.length p) d = (c =? d)%char.
Proof. unfold sv.at_is. induction p as [|a p IH]; simpl; done. Qed.

Lemma at_is_split (s : string) (n : nat) (c : ascii) :
  sv.at_is s n c = true ->
  exists p r, s = p +:+ String c r /\ String.length p = n.
Proof.
  unfold sv.at_is. revert n. induction s as [|a s IH]; intros n H; simpl in *.
  - by destruct n.
  - destruct n as [|n]; simpl in *.
    + apply Ascii.eqb_eq in H as ->. by exists "", s.
    + destruct (IH _ H) as (p & r & -> & <-). by exists (String a p), r.
Qed.

Lemma drop_app (p r : string) : sv.drop (String.length p) (p +:+ r) = r.
Proof. induction p as [|a p IH]; simpl; [by destruct r | done]. Qed.

Lemma take_app (p r : string) : sv.take (String.length p) (p +:+ r) = p.
Proof. induction p as [|a p IH]; simpl; [by destruct r | by rewrite IH]. Qed.

Lemma app_inv_head_s (p r r' : string) : p +:+ r = p +:+ r' -> r = r'.
Proof. induction p as [|a p IH]; simpl; [done | intros [=]; auto]. Qed.

Lemma find_none_app (c : ascii) (s : string) :
  sv.find c s = None ->
  forall r, sv.find c (s +:+ String c r) = Some (String.length s).
Proof.
  induction s as [|a s IH]; simpl; intros H r.
  - by rewrite Ascii.eqb_refl.
  - destruct (a =? c)%char; [done |].
    destruct (sv.find c s); [done |]. by rewrite IH.
Qed.

Lemma sv_empty_iff (s : string) : sv.empty s = true <-> s = "".
Proof. by destruct s. Qed.

End Strings.

(** ** The mount table *)

Section Mount_table.
Context {World : Type}.
Variable pf : fs.Platform.
Implicit Types (rest kept : list (MountPoint.t World)).
Implicit Types (normalized path : string).

Lemma unmount_loop_removed normalized rest removed :
  snd (Vfs.unmount_loop normalized rest removed)
  = removed
    || existsb (fun m => (MountPoint.mount m =? normalized)%string) rest.
Proof.
  revert removed. induction rest as [|m rest IH]; intros removed; simpl.
  - by rewrite orb_false_r.
  - destruct (MountPoint.mount m =? normalized)%string; simpl.
    + rewrite IH. by rewrite orb_true_r.
    + specialize (IH removed).
      destruct (Vfs.unmount_loop normalized rest removed); simpl in *. done.
Qed.

Lemma unmount_loop_kept normalized rest removed :
  fst (Vfs.unmount_loop normalized rest removed)
  = List.filter (fun m => negb (MountPoint.mount m =? normalized)%string) rest.
Proof.
  revert removed.
  induction rest as [|m rest IH]; intros removed; simpl; [done |].
  destruct (MountPoint.mount m =? normalized)%string; simpl; [apply IH |].
  specialize (IH removed).
  destruct (Vfs.unmount_loop normalized rest removed); simpl in *. by f_equal.
Qed.

Lemma filter_nothing_removed {A} (f : A -> bool) (l : list A) :
  existsb f l = false -> List.filter (fun x => negb (f x)) l = l.
Proof.
  induction l as [|x l IH]; simpl; [done |].
  destruct (f x); simpl; [done |]. intros H. by rewrite IH.
Qed.

(** C9. A [mount] or an [unmount] that returns [false] leaves the mount
    table as it was, entries and order; and these are the failures
    there are: [mount] fails on a null backend or a prefix the
    normaliser rejects, [unmount] on a rejected path or when no entry
    has the normalised path as its prefix. *)
Theorem failed_mutation_keeps_table path
    (mounts_ : list (MountPoint.t World)) :
  (forall backend mounts',
      Vfs.mount pf path backend mounts_ = (false, mounts') ->
      mounts' = mounts_
      /\ (backend = None \/ detail.normalize_virtual_path pf path = None))
  /\ (forall mounts',
      Vfs.unmount pf path mounts_ = (false, mounts') ->
      mounts' = mounts_
      /\ (detail.normalize_virtual_path pf path = None
          \/ exists normalized,
               detail.normalize_virtual_path pf path = Some normalized
               /\ forall m, m ∈ mounts_ -> MountPoint.mount m <> normalized)).
Proof.
  split.
  - intros backend mounts'. unfold Vfs.mount.
    destruct backend as [b|]; [| intros [= <-]; auto].
    destruct (detail.normalize_virtual_path pf path); [done |].
    intros [= <-]; auto.
  - intros mounts'. unfold Vfs.unmount.
    destruct (detail.normalize_virtual_path pf path) as [normalized|];
      [| intros [= <-]; auto].
    pose proof (unmount_loop_removed normalized mounts_ false) as Hr.
    pose proof (unmount_loop_kept normalized mounts_ false) as Hk.
    destruct (Vfs.unmount_loop normalized mounts_ false) as [kept removed].
    simpl in *. intros [= -> <-]. symmetry in Hr.
    split.
    + rewrite Hk. by apply filter_nothing_removed.
    + right. exists normalized. split; [done |]. intros m Hm Heq.
      assert (existsb (fun m => (MountPoint.mount m =? normalized)%string)
                mounts_ = true) as Hex; [| congruence].
      apply existsb_exists. exists m. split.
      * by apply list_elem_of_In.
      * by apply String.eqb_eq.
Qed.

End Mount_table.

(** ** Reading and writing through the overlay *)

Section Overlay.
Context {World : Type}.
Variable pf : fs.Platform.
Implicit Types (its older newer : list (MountPoint.t World)).
Implicit Types (m it : MountPoint.t World) (w : World).
Implicit Types (normalized path : string).

Lemma read_file_loop_hit normalized its w blob :
  Vfs.read_file_loop normalized its w = Some blob <->
  exists skipped it later,
    its = skipped ++ it :: later
    /\ read_hit normalized w it blob
    /\ Forall (read_miss normalized w) skipped.
Proof.
  induction its as [|it its IH]; simpl.
  - split; [done |]. intros (skipped & it & later & H & _). by destruct skipped.
  - destruct (detail.relative_to_mount normalized (MountPoint.mount it))
      as [relative|] eqn:Hrel.
    + destruct (Backend.read_file (MountPoint.backend it) relative w)
        as [data|] eqn:Hread.
      * split.
        -- intros [= ->]. exists [], it, its. repeat split; [| done].
           by exists relative.
        -- intros (skipped & it' & later & Heq & Hhit & Hmiss).
           destruct skipped as [|s skipped]; simplify_eq/=.
           ++ destruct Hhit as (r & ? & ?). congruence.
           ++ apply Forall_cons in Hmiss as [Hmiss _].
              specialize (Hmiss _ Hrel). congruence.
      * rewrite IH. split.
        -- intros (skipped & it' & later & -> & Hhit & Hmiss).
           exists (it :: skipped), it', later. repeat split; [done |].
           constructor; [| done]. intros r Hr. congruence.
        -- intros (skipped & it' & later & Heq & Hhit & Hmiss).
           destruct skipped as [|s skipped]; simplify_eq/=.
           ++ destruct Hhit as (r & ? & ?). congruence.
           ++ apply Forall_cons in Hmiss as [_ Hmiss]. eauto 6.
    + rewrite IH. split.
      * intros (skipped & it' & later & -> & Hhit & Hmiss).
        exists (it :: skipped), it', later. repeat split; [done |].
        constructor; [| done]. intros r Hr. congruence.
      * intros (skipped & it' & later & Heq & Hhit & Hmiss).
        destruct skipped as [|s skipped]; simplify_eq/=.
        -- destruct Hhit as (r & ? & ?). congruence.
        -- apply Forall_cons in Hmiss as [_ Hmiss]. eauto 6.
Qed.

Lemma read_file_loop_absent normalized its w :
  Vfs.read_file_loop normalized its w = None <->
  Forall (read_miss normalized w) its.
Proof.
  induction its as [|it its IH]; simpl; [by split |].
  rewrite Forall_cons. unfold read_miss at 1.
  destruct (detail.relative_to_mount normalized (MountPoint.mount it))
    as [relative|] eqn:Hrel.
  - destruct (Backend.read_file (MountPoint.backend it) relative w) eqn:Hread.
    + split; [done |]. intros [H _]. specialize (H _ eq_refl). congruence.
    + rewrite IH. split; [| tauto]. intros H. split; [| done].
      intros r [= <-]. done.
  - rewrite IH. split; [| tauto]. intros H. split; [| done]. done.
Qed.

Lemma rev_split_middle {A} (l : list A) (skipped later : list A) (x : A) :
  rev l = skipped ++ x :: later <-> l = rev later ++ x :: rev skipped.
Proof.
  split; intros H.
  - rewrite <- (rev_involutive l), H, rev_app_distr. simpl.
    by rewrite <- app_assoc.
  - rewrite H, rev_app_distr. simpl. rewrite !rev_involutive.
    by rewrite <- app_assoc.
Qed.

(** C1. [read_file] on a path the normaliser accepts returns [blob]
    exactly when some mount serves the path with [blob] and every mount
    added after it either does not serve the path or has no such file;
    it reports absence exactly when that holds of every mount.  So with
    [a] then [b] mounted at one prefix, both holding the file, and
    nothing added later that holds it, the content returned is [b]'s. *)
Theorem read_file_newest_hit_wins path normalized
    (mounts_ : list (MountPoint.t World)) w :
  detail.normalize_virtual_path pf path = Some normalized ->
  (forall blob,
      Vfs.read_file pf path mounts_ w = Some blob <->
      exists older m newer,
        mounts_ = older ++ m :: newer
        /\ read_hit normalized w m blob
        /\ Forall (read_miss normalized w) newer)
  /\ (Vfs.read_file pf path mounts_ w = None <->
      Forall (read_miss normalized w) mounts_)
  /\ (forall older a b later blob_a blob_b,
      mounts_ = older ++ [a; b] ++ later ->
      MountPoint.mount a = MountPoint.mount b ->
      read_hit normalized w a blob_a ->
      read_hit normalized w b blob_b ->
      Forall (read_miss normalized w) later ->
      Vfs.read_file pf path mounts_ w = Some blob_b).
Proof.
  intros Hnorm. unfold Vfs.read_file. rewrite Hnorm.
  assert (forall blob,
      Vfs.read_file_loop normalized (rev mounts_) w = Some blob <->
      exists older m newer,
        mounts_ = older ++ m :: newer
        /\ read_hit normalized w m blob
        /\ Forall (read_miss normalized w) newer) as Hhit.
  { intros blob. rewrite read_file_loop_hit. split.
    - intros (skipped & it & later & Heq & Hhit & Hmiss).
      apply rev_split_middle in Heq.
      exists (rev later), it, (rev skipped). repeat split; [done.. |].
      by apply Forall_rev.
    - intros (older & m & newer & -> & Hhit & Hmiss).
      exists (rev newer), m, (rev older). split.
      + apply rev_split_middle. by rewrite !rev_involutive.
      + split; [done |]. by apply Forall_rev. }
  split; [exact Hhit |]. split.
  - rewrite read_file_loop_absent. split; intros H.
    + rewrite <- (rev_involutive mounts_). by apply Forall_rev.
    + by apply Forall_rev.
  - intros older a b later blob_a blob_b -> _ _ Hb Hlater.
    apply Hhit. exists (older ++ [a]), b, later.
    split; [by rewrite <- app_assoc | done].
Qed.

Lemma write_file_loop_decisive normalized data skipped it later
    relative result matched last_result w w1 w2 :
  write_passes soft normalized data skipped w w1 ->
  detail.relative_to_mount normalized (MountPoint.mount it) = Some relative ->
  Backend.write_file (MountPoint.backend it) relative data w1 = (result, w2) ->
  result = ok \/ result = io_error ->
  Vfs.write_file_loop normalized data (skipped ++ it :: later) matched
    last_result w = (result, w2).
Proof.
  intros Hpass Hrel Hwrite Hres. revert matched last_result.
  induction Hpass as [w|it' its w w' Hno _ IH
                      |it' its rel' r w w1' w' Hrel' Hwrite' [Hok Hio] _ IH];
    intros matched last_result; simpl.
  - rewrite Hrel, Hwrite. by destruct Hres as [-> | ->].
  - unfold no_match in Hno. rewrite Hno. by apply IH.
  - rewrite Hrel', Hwrite'.
    destruct r; simpl; try done; by apply IH.
Qed.

Lemma write_file_loop_no_match normalized data its matched last_result w :
  Forall (no_match normalized) its ->
  Vfs.write_file_loop normalized data its matched last_result w
  = (if matched then last_result else not_found, w).
Proof.
  induction 1 as [|it its Hno _ IH]; simpl; [done |].
  unfold no_match in Hno. by rewrite Hno.
Qed.

Lemma write_file_loop_not_supported normalized data its matched last_result
    w w' :
  write_passes (eq not_supported) normalized data its w w' ->
  Vfs.write_file_loop normalized data its matched last_result w
  = (if matched || existsb (fun it =>
         match detail.relative_to_mount normalized (MountPoint.mount it) with
         | Some _ => true
         | None => false
         end) its
     then last_result else not_found, w').
Proof.
  intros Hpass. revert matched.
  induction Hpass as [w|it its w w' Hno _ IH
                      |it its rel r w w1 w' Hrel Hwrite <- _ IH];
    intros matched; simpl.
  - by rewrite orb_false_r.
  - unfold no_match in Hno. rewrite Hno. simpl. by rewrite IH.
  - rewrite Hrel, Hwrite. simpl. rewrite IH. simpl.
    by rewrite orb_true_r.
Qed.

(** C2. [write_file] on a path the normaliser accepts asks the mounts
    that serve the path, newest first.  The first backend to answer
    [ok] or [io_error] ends the search, and its answer and the world it
    left are the outcome; a backend answering anything else, as
    [not_supported], is passed over for the next older mount.  With no
    mount serving the path the outcome is [not_found]; with every
    serving mount answering [not_supported] it is [not_supported]. *)
Theorem write_file_first_decisive_answer path normalized data
    (mounts_ : list (MountPoint.t World)) w :
  detail.normalize_virtual_path pf path = Some normalized ->
  (forall older m newer relative result w1 w2,
      mounts_ = older ++ m :: newer ->
      write_passes soft normalized data (rev newer) w w1 ->
      detail.relative_to_mount normalized (MountPoint.mount m)
      = Some relative ->
      Backend.write_file (MountPoint.backend m) relative data w1
      = (result, w2) ->
      result = ok \/ result = io_error ->
      Vfs.write_file pf path data mounts_ w = (result, w2))
  /\ (Forall (no_match normalized) mounts_ ->
      Vfs.write_file pf path data mounts_ w = (not_found, w))
  /\ (forall w',
      write_passes (eq not_supported) normalized data (rev mounts_) w w' ->
      ~ Forall (no_match normalized) mounts_ ->
      Vfs.write_file pf path data mounts_ w = (not_supported, w')).
Proof.
  intros Hnorm. unfold Vfs.write_file. rewrite Hnorm. repeat split.
  - intros older m newer relative result w1 w2 -> Hpass Hrel Hwrite Hres.
    rewrite rev_app_distr. simpl. rewrite <- app_assoc. simpl.
    by eapply write_file_loop_decisive.
  - intros Hno. rewrite write_file_loop_no_match; [done |].
    by apply Forall_rev.
  - intros w' Hpass Hsome.
    rewrite (write_file_loop_not_supported _ _ _ _ _ _ _ Hpass). simpl.
    destruct (existsb _ (rev mounts_)) eqn:Hany; simpl; [done |].
    exfalso. apply Hsome. apply Forall_forall. intros m Hm.
    unfold no_match.
    destruct (detail.relative_to_mount normalized (MountPoint.mount m))
      eqn:Hrel; [| done].
    assert (existsb (fun it =>
         match detail.relative_to_mount normalized (MountPoint.mount it) with
         | Some _ => true
         | None => false
         end) (rev mounts_) = true) as Hex; [| congruence].
    apply existsb_exists. exists m. split.
    + apply in_rev. rewrite rev_involutive. by apply list_elem_of_In.
    + by rewrite Hrel.
Qed.

Lemma implied_dir_at_or_below normalized its m :
  m ∈ its ->
  (MountPoint.mount m = normalized
   \/ exists rest, MountPoint.mount m = normalized +:+ "/" +:+ rest) ->
  Vfs.implied_dir normalized its = true.
Proof.
  intros Hin Hm. induction Hin as [m its | m m' its _ IH]; simpl.
  - destruct Hm as [-> | [rest ->]].
    + by rewrite String.eqb_refl.
    + destruct (_ =? _)%string; [done |].
      rewrite length_app. simpl.
      replace (String.length normalized <? _)%nat with true
        by (symmetry; apply Nat.ltb_lt; lia).
      unfold sv.compare0. rewrite starts_with_app.
      change (normalized +:+ "/" +:+ rest)
        with (normalized +:+ String "/" rest).
      by rewrite at_is_app, Ascii.eqb_refl.
  - destruct (_ =? _)%string; [done |].
    destruct (_ && _); [done | auto].
Qed.

(** C6. [exists_dir] holds of the virtual root exactly when the mount
    table is not empty.  For any other accepted path it holds as soon
    as the normalised path is the prefix of a mount or continues, after
    a slash, into one: whatever the backends say. *)
Theorem exists_dir_of_mount_prefixes path normalized
    (mounts_ : list (MountPoint.t World)) w :
  detail.normalize_virtual_path pf path = Some normalized ->
  (normalized = "" ->
   (Vfs.exists_dir pf path mounts_ w = true <-> mounts_ <> []))
  /\ (normalized <> "" ->
      forall m,
        m ∈ mounts_ ->
        (MountPoint.mount m = normalized
         \/ exists rest, MountPoint.mount m = normalized +:+ "/" +:+ rest) ->
        Vfs.exists_dir pf path mounts_ w = true).
Proof.
  intros Hnorm. unfold Vfs.exists_dir. rewrite Hnorm. split.
  - intros ->. simpl. by destruct mounts_.
  - intros Hne m Hin Hm.
    destruct normalized; [done |]. simpl sv.empty. cbv iota.
    by rewrite (implied_dir_at_or_below _ _ _ Hin Hm).
Qed.

End Overlay.

(** ** The [emit] aggregator *)

Section Emit.

Lemma Result_eqb_eq (a b : Result) : Result_eqb a b = true <-> a = b.
Proof. destruct a, b; simpl; split; congruence. Qed.

Lemma emit_all_duplicates names seen calls :
  Vfs.emit_all true names (seen, calls) = (seen, calls ++ names).
Proof.
  unfold Vfs.emit_all. revert calls.
  induction names as [|x names IH]; intros calls; simpl.
  - by rewrite app_nil_r.
  - rewrite IH. by rewrite <- app_assoc.
Qed.

Lemma emit_all_dedup names seen calls :
  Vfs.emit_all false names (seen, calls)
  = (list_to_set (first_occurrences seen names) ∪ seen,
     calls ++ first_occurrences seen names).
Proof.
  unfold Vfs.emit_all. revert seen calls.
  induction names as [|x names IH]; intros seen calls; simpl.
  - rewrite app_nil_r. f_equal. set_solver.
  - destruct (bool_decide (x ∈ seen)); [apply IH |].
    rewrite IH. simpl. rewrite <- app_assoc. f_equal. set_solver.
Qed.

Lemma elem_of_first_occurrences seen names x :
  x ∈ first_occurrences seen names <-> x ∈ names /\ x ∉ seen.
Proof.
  revert seen. induction names as [|y names IH]; intros seen; simpl.
  - set_solver.
  - case_bool_decide as Hy.
    + rewrite IH, elem_of_cons. split; [tauto |].
      intros [[-> | ?] ?]; [done | tauto].
    + rewrite !elem_of_cons, IH, not_elem_of_union, elem_of_singleton.
      split.
      * intros [-> | (? & ? & ?)]; [split; [by left | done] | tauto].
      * intros [[-> | ?] ?]; [by left |].
        destruct (decide (x = y)) as [-> | ?]; [by left | tauto].
Qed.

Lemma NoDup_first_occurrences seen names :
  NoDup (first_occurrences seen names).
Proof.
  revert seen. induction names as [|y names IH]; intros seen; simpl.
  - constructor.
  - case_bool_decide; [done |]. constructor; [| done].
    rewrite elem_of_first_occurrences. set_solver.
Qed.

Lemma first_occurrences_seen seen seen' names :
  seen = seen' -> first_occurrences seen names = first_occurrences seen' names.
Proof. by intros ->. Qed.

Lemma first_occurrences_app seen l k :
  first_occurrences seen (l ++ k)
  = first_occurrences seen l
    ++ first_occurrences (list_to_set (first_occurrences seen l) ∪ seen) k.
Proof.
  revert seen. induction l as [|y l IH]; intros seen; simpl.
  - apply first_occurrences_seen. set_solver.
  - case_bool_decide; [done |]. simpl. rewrite IH. do 2 f_equal.
    apply first_occurrences_seen. set_solver.
Qed.

End Emit.

(** ** What the serving mounts report *)

Section Reported.
Context {World : Type}.
Variable request : MountPoint.t World -> string -> Result * list string.
Variable normalized : string.
Implicit Types (its l k : list (MountPoint.t World)) (m : MountPoint.t World).

Lemma reported_app l k :
  existsb (fails request normalized) l = false ->
  reported request normalized (l ++ k)
  = reported request normalized l ++ reported request normalized k.
Proof.
  induction l as [|it l IH]; simpl; [done |]. unfold fails at 1.
  destruct (detail.relative_to_mount normalized (MountPoint.mount it))
    as [relative|]; [| done].
  destruct (request it relative) as [r names]. simpl.
  destruct (Result_eqb r io_error); [done |]. simpl. intros H.
  by rewrite IH, app_assoc.
Qed.

Lemma elem_of_reported its x :
  existsb (fails request normalized) its = false ->
  x ∈ reported request normalized its <->
  exists m r names,
    m ∈ its /\ answers request normalized m r names /\ x ∈ names.
Proof.
  induction its as [|it its IH]; simpl.
  - intros _. split; [by intros ?%elem_of_nil |].
    by intros (m & ? & ? & ?%elem_of_nil & _).
  - unfold fails at 1.
    destruct (detail.relative_to_mount normalized (MountPoint.mount it))
      as [relative|] eqn:Hrel.
    + destruct (request it relative) as [r names] eqn:Hreq. simpl.
      destruct (Result_eqb r io_error); [done |]. simpl. intros Hnf.
      rewrite elem_of_app, (IH Hnf). split.
      * intros [Hx | (m & r' & names' & Hm & Ha & Hx)].
        -- exists it, r, names. repeat split; [by left | | done].
           by exists relative.
        -- exists m, r', names'. repeat split; [by right | done..].
      * intros (m & r' & names' & Hm & Ha & Hx).
        apply elem_of_cons in Hm as [-> | Hm].
        -- left. destruct Ha as (rel' & Hrel' & Hreq').
           assert (names' = names) as -> by congruence. done.
        -- right. eauto 7.
    + intros Hnf. rewrite (IH Hnf). split.
      * intros (m & r' & names' & Hm & Ha & Hx).
        exists m, r', names'. repeat split; [by right | done..].
      * intros (m & r' & names' & Hm & Ha & Hx).
        apply elem_of_cons in Hm as [-> | Hm]; [| eauto 7].
        destruct Ha as (rel' & Hrel' & _). congruence.
Qed.

Lemma sound_never_fails its :
  Forall (sound request normalized) its ->
  existsb (fails request normalized) its = false.
Proof.
  induction 1 as [|it its Hs _ IH]; simpl; [done |].
  rewrite IH, orb_false_r. unfold fails.
  destruct (detail.relative_to_mount normalized (MountPoint.mount it))
    as [relative|] eqn:Hrel; [| done].
  destruct (request it relative) as [r names] eqn:Hreq. simpl.
  destruct (Result_eqb r io_error) eqn:Hr; [| done].
  apply Result_eqb_eq in Hr as ->. exfalso.
  apply (Hs io_error names); [| done]. by exists relative.
Qed.

Lemma no_match_not_served its :
  Forall (no_match normalized) its ->
  existsb (serves normalized) its = false
  /\ existsb (fails request normalized) its = false
  /\ reported request normalized its = [].
Proof.
  induction 1 as [|it its Hno _ (IH1 & IH2 & IH3)]; simpl; [done |].
  unfold serves at 1, fails at 1. unfold no_match in Hno. by rewrite Hno.
Qed.

Lemma some_match_served its :
  ~ Forall (no_match normalized) its ->
  existsb (serves normalized) its = true.
Proof.
  intros H. destruct (existsb (serves normalized) its) eqn:Hex; [done |].
  exfalso. apply H. apply Forall_forall. intros m Hm. unfold no_match.
  destruct (detail.relative_to_mount normalized (MountPoint.mount m))
    eqn:Hrel; [| done].
  enough (existsb (serves normalized) its = true) by congruence.
  apply existsb_exists. exists m. split; [by apply list_elem_of_In |].
  unfold serves. by rewrite Hrel.
Qed.

Lemma answers_fails m names :
  answers request normalized m io_error names ->
  fails request normalized m = true
  /\ serves normalized m = true
  /\ forall k, reported request normalized (m :: k) = names.
Proof.
  intros (relative & Hrel & Hreq). unfold fails, serves. simpl.
  by rewrite Hrel, Hreq.
Qed.

End Reported.

(** ** Listing files *)

Section List_files.
Context {World : Type}.
Variable pf : fs.Platform.
Implicit Types (its older newer : list (MountPoint.t World)).
Implicit Types (m it : MountPoint.t World) (w : World).
Implicit Types (normalized path : string).

Lemma list_files_loop_outcome normalized extensions allow its w matched
    seen calls :
  Vfs.list_files_loop normalized extensions allow its w matched (seen, calls)
  = (if existsb (fails (files_request extensions w) normalized) its
     then io_error
     else if matched || existsb (serves normalized) its then ok
          else not_found,
     calls ++
       let names := reported (files_request extensions w) normalized its in
       if allow then names else first_occurrences seen names).
Proof.
  revert matched seen calls.
  induction its as [|it its IH]; intros matched seen calls; simpl.
  - rewrite orb_false_r. destruct allow; by rewrite app_nil_r.
  - unfold fails at 1, serves at 1.
    destruct (detail.relative_to_mount normalized (MountPoint.mount it))
      as [relative|] eqn:Hrel; [| apply IH].
    change (Backend.list_files (MountPoint.backend it) relative extensions
              true w) with (files_request extensions w it relative).
    destruct (files_request extensions w it relative) as [r names] eqn:Hreq.
    simpl.
    destruct allow.
    + rewrite emit_all_duplicates.
      destruct (Result_eqb r io_error) eqn:Hr; simpl.
      * by apply Result_eqb_eq in Hr as ->.
      * rewrite IH. rewrite orb_true_r. simpl. by rewrite <- app_assoc.
    + rewrite emit_all_dedup.
      destruct (Result_eqb r io_error) eqn:Hr; simpl.
      * by apply Result_eqb_eq in Hr as ->.
      * rewrite IH. rewrite orb_true_r. simpl.
        by rewrite first_occurrences_app, <- app_assoc.
Qed.

Lemma list_files_outcome path normalized extensions allow
    (mounts_ : list (MountPoint.t World)) w :
  detail.normalize_virtual_path pf path = Some normalized ->
  Vfs.list_files pf path extensions allow mounts_ w
  = (if existsb (fails (files_request extensions w) normalized) (rev mounts_)
     then io_error
     else if existsb (serves normalized) (rev mounts_) then ok else not_found,
     let names :=
       reported (files_request extensions w) normalized (rev mounts_) in
     if allow then names else first_occurrences ∅ names).
Proof.
  intros Hnorm. unfold Vfs.list_files. rewrite Hnorm.
  by rewrite list_files_loop_outcome.
Qed.

Lemma elem_of_rev_list {A} (l : list A) (x : A) : x ∈ rev l <-> x ∈ l.
Proof. rewrite !list_elem_of_In. symmetry. apply in_rev. Qed.

Lemma Forall_rev_iff {A} (P : A -> Prop) (l : list A) :
  Forall P (rev l) <-> Forall P l.
Proof.
  split; intros H; [| by apply Forall_rev].
  rewrite <- (rev_involutive l). by apply Forall_rev.
Qed.

(** C3. [list_files] on a path the normaliser accepts.  With no mount
    serving the path the result is [not_found] and the callback is
    never called.  A serving backend that fails with [io_error], none
    of the newer ones having failed, makes the result [io_error] at
    once: no older mount is asked.  When no serving backend fails and
    some mount serves the path, the result is [ok] and the callback
    receives the names of all serving mounts, the union: a name is
    passed exactly when some serving backend reports it, and without
    [allow_duplicates] no name is passed twice.  In every case the
    calls without [allow_duplicates] are the calls with it, of each
    name the first one only. *)
Theorem list_files_is_union path normalized extensions
    (mounts_ : list (MountPoint.t World)) w :
  detail.normalize_virtual_path pf path = Some normalized ->
  (forall allow,
      Forall (no_match normalized) mounts_ ->
      Vfs.list_files pf path extensions allow mounts_ w = (not_found, []))
  /\ (forall allow older m newer names,
      mounts_ = older ++ m :: newer ->
      answers (files_request extensions w) normalized m io_error names ->
      Forall (sound (files_request extensions w) normalized) newer ->
      Vfs.list_files pf path extensions allow mounts_ w
      = (io_error,
         snd (Vfs.list_files pf path extensions allow (m :: newer) w)))
  /\ (Forall (sound (files_request extensions w) normalized) mounts_ ->
      ~ Forall (no_match normalized) mounts_ ->
      (forall allow,
          fst (Vfs.list_files pf path extensions allow mounts_ w) = ok
          /\ forall x,
              x ∈ snd (Vfs.list_files pf path extensions allow mounts_ w) <->
              exists m r names,
                m ∈ mounts_
                /\ answers (files_request extensions w) normalized m r names
                /\ x ∈ names)
      /\ NoDup (snd (Vfs.list_files pf path extensions false mounts_ w)))
  /\ snd (Vfs.list_files pf path extensions false mounts_ w)
     = first_occurrences ∅
         (snd (Vfs.list_files pf path extensions true mounts_ w)).
Proof.
  intros Hnorm. split; [| split; [| split]];
    [| | | by rewrite !(list_files_outcome _ _ _ _ _ _ Hnorm)].
  - intros allow Hno. rewrite (list_files_outcome _ _ _ _ _ _ Hnorm).
    apply Forall_rev_iff in Hno.
    destruct (no_match_not_served (files_request extensions w) _ _ Hno)
      as (-> & -> & ->).
    by destruct allow.
  - intros allow older m newer names -> Hans Hsound.
    rewrite !(list_files_outcome _ _ _ _ _ _ Hnorm). simpl.
    apply Forall_rev_iff, sound_never_fails in Hsound.
    destruct (answers_fails _ _ _ _ Hans) as (Hf & Hs & Hrep).
    rewrite rev_app_distr. simpl. rewrite <- app_assoc. simpl.
    rewrite !existsb_app. simpl. rewrite Hf, orb_true_r. f_equal.
    rewrite !reported_app by done. by rewrite !Hrep.
  - intros Hsound Hsome.
    rewrite <- Forall_rev_iff in Hsome. apply some_match_served in Hsome.
    apply Forall_rev_iff, sound_never_fails in Hsound. split.
    + intros allow. rewrite (list_files_outcome _ _ _ _ _ _ Hnorm).
      rewrite Hsound, Hsome. simpl. split; [done |]. intros x.
      assert (x ∈ reported (files_request extensions w) normalized
                (rev mounts_) <->
              exists m r names,
                m ∈ mounts_
                /\ answers (files_request extensions w) normalized m r names
                /\ x ∈ names) as Hrep.
      { rewrite (elem_of_reported _ _ _ _ Hsound).
        by setoid_rewrite elem_of_rev_list. }
      destruct allow; [done |].
      rewrite elem_of_first_occurrences, Hrep. set_solver.
    + rewrite (list_files_outcome _ _ _ _ _ _ Hnorm). simpl.
      apply NoDup_first_occurrences.
Qed.

(** C10. [list_files] without [allow_duplicates] asks the serving
    mounts newest first.  Let [m] report the name [x], no mount added
    after [m] having reported it (or failed).  Then the one call of the
    callback with [x] falls into the enumeration of [m]: what the
    callback receives is [before], received while the mounts newer than
    [m] were asked, then [during], the names of [m] not received
    before, then [after]; and [x] is in [during] only. *)
Theorem list_files_newest_contributor_emits path normalized extensions
    (mounts_ : list (MountPoint.t World)) w older m newer r names x :
  detail.normalize_virtual_path pf path = Some normalized ->
  mounts_ = older ++ m :: newer ->
  answers (files_request extensions w) normalized m r names ->
  x ∈ names ->
  Forall (fun m' => forall r' names',
            answers (files_request extensions w) normalized m' r' names' ->
            r' <> io_error /\ x ∉ names') newer ->
  exists before during after,
    snd (Vfs.list_files pf path extensions false mounts_ w)
    = before ++ during ++ after
    /\ snd (Vfs.list_files pf path extensions false newer w) = before
    /\ snd (Vfs.list_files pf path extensions false (m :: newer) w)
       = before ++ during
    /\ during = first_occurrences (list_to_set before) names
    /\ x ∈ during /\ (x ∉ before) /\ (x ∉ after)
    /\ NoDup (before ++ during ++ after).
Proof.
  intros Hnorm -> Hans Hx Hnewer.
  set (request := files_request extensions w) in *.
  assert (Forall (sound request normalized) newer) as Hsound.
  { eapply Forall_impl; [exact Hnewer |]. intros m' H r' names' Ha.
    by apply (H r' names'). }
  apply Forall_rev_iff, sound_never_fails in Hsound.
  assert (x ∉ reported request normalized (rev newer)) as Hnew.
  { rewrite (elem_of_reported _ _ _ _ Hsound).
    intros (m' & r' & names' & Hm' & Ha & Hx').
    rewrite elem_of_rev_list in Hm'.
    rewrite Forall_forall in Hnewer.
    by destruct (Hnewer m' Hm' r' names' Ha). }
  destruct Hans as (relative & Hrel & Hreq).
  set (before :=
         first_occurrences ∅ (reported request normalized (rev newer))).
  set (during := first_occurrences (list_to_set before) names).
  assert (forall k, first_occurrences ∅ (reported request normalized
                      (rev newer ++ m :: k))
                    = before ++ during
                      ++ first_occurrences
                           (list_to_set during ∪ list_to_set before)
                           (if Result_eqb r io_error then []
                            else reported request normalized k)) as Hsplit.
  { intros k. rewrite reported_app by done. simpl. rewrite Hrel, Hreq.
    rewrite first_occurrences_app. fold before. f_equal.
    assert ((list_to_set before ∪ ∅ : gset string) = list_to_set before)
      as -> by set_solver.
    destruct (Result_eqb r io_error).
    - by rewrite app_nil_r.
    - by rewrite first_occurrences_app. }
  exists before, during,
    (first_occurrences (list_to_set during ∪ list_to_set before)
       (if Result_eqb r io_error then []
        else reported request normalized (rev older))).
  rewrite !(list_files_outcome _ _ _ _ _ _ Hnorm). simpl.
  rewrite rev_app_distr. simpl. rewrite <- app_assoc. simpl.
  fold request. rewrite Hsplit.
  assert (x ∈ during) as Hduring.
  { unfold during. rewrite elem_of_first_occurrences. split; [done |].
    rewrite elem_of_list_to_set. unfold before.
    rewrite elem_of_first_occurrences. tauto. }
  repeat split.
  - change (rev newer ++ [m]) with (rev newer ++ m :: []). rewrite Hsplit.
    simpl. destruct (Result_eqb r io_error); simpl; by rewrite app_nil_r.
  - done.
  - unfold before. rewrite elem_of_first_occurrences. tauto.
  - rewrite elem_of_first_occurrences. set_solver.
  - rewrite <- Hsplit. apply NoDup_first_occurrences.
Qed.

End List_files.

(** ** Listing directories *)

Section List_dirs.
Context {World : Type}.
Variable pf : fs.Platform.
Implicit Types (its older newer : list (MountPoint.t World)).
Implicit Types (m it : MountPoint.t World) (w : World).
Implicit Types (normalized path : string).

Lemma emit_children_all normalized allow its st :
  Vfs.emit_children normalized allow its st
  = Vfs.emit_all allow (children normalized its) st.
Proof.
  revert st. induction its as [|it its IH]; intros st; simpl; [done |].
  unfold children. simpl.
  destruct (detail.child_mount_name normalized (MountPoint.mount it)); simpl.
  - apply IH.
  - apply IH.
Qed.

Lemma list_dirs_loop_outcome normalized allow its w matched seen calls :
  Vfs.list_dirs_loop normalized allow its w matched (seen, calls)
  = let names := reported (dirs_request w) normalized its in
    let seen' :=
      if allow then seen
      else list_to_set (first_occurrences seen names) ∪ seen in
    (if existsb (fails (dirs_request w) normalized) its then io_error
     else if matched || existsb (serves normalized) its
             || negb (bool_decide (seen' = ∅))
          then ok else not_found,
     calls ++ if allow then names else first_occurrences seen names).
Proof.
  revert matched seen calls.
  induction its as [|it its IH]; intros matched seen calls; simpl.
  - destruct allow; simpl; rewrite orb_false_r, app_nil_r; [done |].
    by assert ((∅ ∪ seen : gset string) = seen) as -> by set_solver.
  - unfold fails at 1, serves at 1.
    destruct (detail.relative_to_mount normalized (MountPoint.mount it))
      as [relative|] eqn:Hrel; [| apply IH].
    change (Backend.list_dirs (MountPoint.backend it) relative true w)
      with (dirs_request w it relative).
    destruct (dirs_request w it relative) as [r names] eqn:Hreq. simpl.
    destruct allow.
    + rewrite emit_all_duplicates.
      destruct (Result_eqb r io_error) eqn:Hr; simpl.
      * by apply Result_eqb_eq in Hr as ->.
      * rewrite IH. simpl. rewrite !orb_true_r. simpl.
        by rewrite <- app_assoc.
    + rewrite emit_all_dedup.
      destruct (Result_eqb r io_error) eqn:Hr; simpl.
      * by apply Result_eqb_eq in Hr as ->.
      * rewrite IH. simpl. rewrite !orb_true_r. simpl.
        by rewrite first_occurrences_app, <- app_assoc.
Qed.

Lemma list_dirs_outcome path normalized allow
    (mounts_ : list (MountPoint.t World)) w :
  detail.normalize_virtual_path pf path = Some normalized ->
  Vfs.list_dirs pf path allow mounts_ w
  = let synthetic := children normalized mounts_ in
    let names := reported (dirs_request w) normalized (rev mounts_) in
    let calls :=
      if allow then synthetic ++ names
      else first_occurrences ∅ (synthetic ++ names) in
    (if existsb (fails (dirs_request w) normalized) (rev mounts_)
     then io_error
     else if existsb (serves normalized) (rev mounts_)
             || (negb allow && negb (bool_decide (calls = [])))
          then ok else not_found,
     calls).
Proof.
  intros Hnorm. unfold Vfs.list_dirs. rewrite Hnorm.
  rewrite emit_children_all. destruct allow.
  - rewrite emit_all_duplicates, list_dirs_loop_outcome. simpl.
    by rewrite bool_decide_eq_true_2.
  - rewrite emit_all_dedup, list_dirs_loop_outcome. simpl.
    rewrite first_occurrences_app.
    set (a := first_occurrences ∅ (children normalized mounts_)).
    set (b := first_occurrences (list_to_set a ∪ ∅) _).
    assert (bool_decide (list_to_set b ∪ (list_to_set a ∪ ∅)
                         = (∅ : gset string))
            = bool_decide (a ++ b = [])) as ->; [| done].
    apply bool_decide_ext. split.
    + intros Hempty. destruct a as [|y a]; [destruct b as [|y b] |];
        [done | |]; exfalso; set_solver.
    + intros [-> ->]%app_eq_nil. set_solver.
Qed.

Lemma child_mount_name_below parent mount segment :
  next_segment_below parent mount segment ->
  detail.child_mount_name parent mount = Some segment.
Proof.
  intros (Hseg & rest & Hrest & Hmount). unfold detail.child_mount_name.
  assert (sv.substr 0 (sv.find "/" (segment +:+ rest)) (segment +:+ rest)
          = segment) as Hcut.
  { destruct Hrest as [-> | (rest' & ->)].
    - rewrite app_empty_r, Hseg. simpl. by destruct segment.
    - rewrite (find_none_app _ _ Hseg). simpl.
      replace (sv.drop 0 (segment +:+ String "/" rest'))
        with (segment +:+ String "/" rest') by (by destruct segment).
      apply take_app. }
  destruct (sv.empty parent) eqn:Hparent.
  - destruct Hmount as [-> Hne].
    destruct (sv.empty (segment +:+ rest)) eqn:He.
    + apply sv_empty_iff in He. done.
    + by rewrite Hcut.
  - subst mount. destruct parent as [|c parent]; [done |]. simpl sv.empty.
    cbv iota.
    rewrite length_app.
    replace (_ <=? _)%nat with false
      by (symmetry; apply Nat.leb_gt; simpl; lia).
    unfold sv.compare0. rewrite starts_with_app.
    change ("/" +:+ segment +:+ rest) with (String "/" (segment +:+ rest)).
    rewrite at_is_app, Ascii.eqb_refl. simpl negb. simpl orb. cbv iota.
    change (sv.substr (String.length (String c parent) + 1) None)
      with (sv.drop (String.length (String c parent) + 1)).
    replace (String.length (String c parent) + 1)
      with (String.length (String c parent +:+ "/")).
    2:{ rewrite length_app. simpl. lia. }
    replace (String c parent +:+ String "/" (segment +:+ rest))
      with ((String c parent +:+ "/") +:+ (segment +:+ rest)).
    2:{ by rewrite app_assoc_s. }
    rewrite drop_app. by rewrite Hcut.
Qed.

(** C7. [list_dirs] on an accepted path passes to the callback, for
    every mount whose prefix lies strictly below the listed directory,
    the next segment of that prefix under the directory: with or
    without [allow_duplicates], whatever the backends contain or
    answer. *)
Theorem list_dirs_shows_mount_points path normalized
    (mounts_ : list (MountPoint.t World)) w m segment :
  detail.normalize_virtual_path pf path = Some normalized ->
  m ∈ mounts_ ->
  next_segment_below normalized (MountPoint.mount m) segment ->
  forall allow, segment ∈ snd (Vfs.list_dirs pf path allow mounts_ w).
Proof.
  intros Hnorm Hm Hbelow allow.
  rewrite (list_dirs_outcome _ _ _ _ _ Hnorm). simpl.
  assert (segment ∈ children normalized mounts_) as Hchild.
  { unfold children. apply list_elem_of_omap. exists m. split; [done |].
    by apply child_mount_name_below. }
  destruct allow.
  - apply elem_of_app. by left.
  - apply elem_of_first_occurrences. split; [| set_solver].
    apply elem_of_app. by left.
Qed.

(** The result of [list_dirs], in full: [io_error] when a serving
    backend fails; otherwise [ok] when some mount serves the path or,
    without [allow_duplicates] only, when the callback was called. *)
Lemma list_dirs_result path normalized allow
    (mounts_ : list (MountPoint.t World)) w :
  detail.normalize_virtual_path pf path = Some normalized ->
  Forall (sound (dirs_request w) normalized) mounts_ ->
  (fst (Vfs.list_dirs pf path allow mounts_ w) = ok <->
   ~ Forall (no_match normalized) mounts_
   \/ (allow = false /\ children normalized mounts_ <> []))
  /\ (fst (Vfs.list_dirs pf path allow mounts_ w) = not_found <->
      Forall (no_match normalized) mounts_
      /\ (allow = true \/ children normalized mounts_ = [])).
Proof.
  intros Hnorm Hsound. rewrite (list_dirs_outcome _ _ _ _ _ Hnorm). simpl.
  apply Forall_rev_iff, sound_never_fails in Hsound. rewrite Hsound.
  destruct (decide (Forall (no_match normalized) mounts_)) as [Hno | Hsome].
  - pose proof Hno as Hno'. apply Forall_rev_iff in Hno'.
    destruct (no_match_not_served (dirs_request w) _ _ Hno')
      as (-> & _ & ->).
    rewrite app_nil_r. simpl.
    destruct allow; simpl; [naive_solver |].
    destruct (children normalized mounts_) as [|c cs] eqn:Hc; simpl;
      [naive_solver |].
    assert (c ∉ (∅ : gset string)) as Hc' by set_solver.
    rewrite bool_decide_eq_false_2 by done. simpl. naive_solver.
  - pose proof Hsome as Hsome'. rewrite <- Forall_rev_iff in Hsome'.
    apply some_match_served in Hsome'. rewrite Hsome'. simpl.
    naive_solver.
Qed.

End List_dirs.

(** ** Pathnames *)

Section Segments.
Variable pf : fs.Platform.

Lemma is_slash_slash : fs.is_slash pf "/" = true.
Proof. by destruct pf. Qed.

Lemma is_slash_preferred : fs.is_slash pf (fs.preferred_separator pf) = true.
Proof. by destruct pf. Qed.

Lemma segments_not_nil s : fs.segments pf s <> [].
Proof.
  destruct s as [|c s]; simpl; [done |].
  destruct (fs.is_slash pf c); [done |]. by destruct (fs.segments pf s).
Qed.

Lemma segments_app_sep name sep r :
  slash_free pf name = true ->
  fs.is_slash pf sep = true ->
  fs.segments pf (name +:+ String sep r) = name :: fs.segments pf r.
Proof.
  intros Hname Hsep. induction name as [|c name IH]; simpl.
  - by rewrite Hsep.
  - simpl in Hname. apply andb_true_iff in Hname as [Hc Hname].
    apply negb_true_iff in Hc. rewrite Hc. by rewrite IH.
Qed.

Lemma segments_slash_free name :
  slash_free pf name = true -> fs.segments pf name = [name].
Proof.
  induction name as [|c name IH]; simpl; [done |].
  intros [Hc Hname]%andb_true_iff. apply negb_true_iff in Hc.
  rewrite Hc. by rewrite IH.
Qed.

Lemma segments_are_slash_free s :
  Forall (fun seg => slash_free pf seg = true) (fs.segments pf s).
Proof.
  induction s as [|c s IH]; simpl; [by repeat constructor |].
  destruct (fs.is_slash pf c) eqn:Hc; [by constructor |].
  destruct (fs.segments pf s) as [|seg rest].
  { constructor; [simpl; by rewrite Hc | constructor]. }
  apply Forall_cons in IH as [Hseg Hrest]. constructor; [| done].
  simpl. by rewrite Hc, Hseg.
Qed.

Lemma flag_last_cons x l :
  l <> [] -> fs.flag_last (x :: l) = (x, true) :: fs.flag_last l.
Proof. by destruct l. Qed.

Lemma flag_last_names l : map fst (fs.flag_last l) = l.
Proof.
  induction l as [|x l IH]; [done |].
  destruct l as [|y l]; [done |]. rewrite flag_last_cons by done.
  rewrite map_cons, IH. done.
Qed.

Lemma separated_flag_last l : separated (fs.flag_last l).
Proof.
  induction l as [|x l IH]; [done |].
  destruct l as [|y l]; [done |]. rewrite flag_last_cons by done.
  change (separated ((x, true) :: fs.flag_last (y :: l))) with
    (match fs.flag_last (y :: l) with
     | [] => True
     | _ :: _ => true = true /\ separated (fs.flag_last (y :: l))
     end).
  by destruct (fs.flag_last (y :: l)).
Qed.

Lemma separated_sublist (l' l : list (string * bool)) :
  l' `sublist_of` l -> separated l -> separated l'.
Proof.
  induction 1 as [|x l1 l2 Hsub IH|x l1 l2 Hsub IH]; [done | |].
  - intros Hl. destruct l1 as [|y l1]; [done |].
    destruct l2 as [|z l2]; [by apply sublist_nil_r in Hsub |].
    destruct Hl as [Hx Hl]. split; [done | by apply IH].
  - intros Hl. apply IH. destruct l2; [done |]. by destruct Hl.
Qed.

Lemma Forall_sublist {A} (P : A -> Prop) (l' l : list A) :
  l' `sublist_of` l -> Forall P l -> Forall P l'.
Proof.
  intros Hsub Hl. apply Forall_forall. intros x Hx.
  rewrite Forall_forall in Hl. apply Hl. by eapply elem_of_sublist.
Qed.

Lemma filter_sublist {A} (f : A -> bool) (l : list A) :
  List.filter f l `sublist_of` l.
Proof.
  induction l as [|x l IH]; simpl; [constructor |].
  destruct (f x); by constructor.
Qed.

Lemma filter_all {A} (f : A -> bool) (l : list A) :
  Forall (fun x => f x = true) l -> List.filter f l = l.
Proof.
  induction 1 as [|x l Hx _ IH]; simpl; [done |]. by rewrite Hx, IH.
Qed.

(** Rendering well-formed items and splitting the text again gives the
    items back. *)
Lemma items_of_render sep its :
  fs.is_slash pf sep = true ->
  separated its ->
  Forall (filename pf) its ->
  List.filter (fun it => negb (sv.empty (fst it)))
    (fs.flag_last (fs.segments pf (fs.render sep its))) = its.
Proof.
  intros Hsep. induction its as [|[name follows] its IH]; intros Hsepd Hnames.
  - done.
  - apply Forall_cons in Hnames as [[Hne Hfree] Hnames]. simpl in Hne, Hfree.
    assert (sv.empty name = false) as Hname by (by destruct name).
    simpl. destruct its as [|it its].
    + destruct follows; simpl.
      * rewrite segments_app_sep by done. simpl. by rewrite Hname.
      * rewrite app_empty_r, segments_slash_free by done. simpl.
        by rewrite Hname.
    + destruct Hsepd as [Hfollows Hsepd]. simpl in Hfollows. subst follows.
      rewrite segments_app_sep by done.
      rewrite flag_last_cons by apply segments_not_nil.
      simpl. rewrite Hname. simpl. f_equal. by apply IH.
Qed.

Lemma items_are_filenames p : Forall (filename pf) (fs.items pf p).
Proof.
  unfold fs.items. apply Forall_forall. intros it Hit.
  apply list_elem_of_In, filter_In in Hit as [Hit Hne]. split.
  - destruct (fst it); done.
  - apply (in_map fst) in Hit. rewrite flag_last_names in Hit.
    pose proof (segments_are_slash_free (sv.drop (fs.root_name_end pf p) p))
      as Hall.
    rewrite Forall_forall in Hall. apply Hall. by apply list_elem_of_In.
Qed.

Lemma items_are_separated p : separated (fs.items pf p).
Proof.
  unfold fs.items. eapply separated_sublist; [apply filter_sublist |].
  apply separated_flag_last.
Qed.

End Segments.

(** ** Lexical normalisation *)

Section Normal_form.

Implicit Types (stack its : list (string * bool)) (it top : string * bool).

Lemma existsb_rev {A} (f : A -> bool) (l : list A) :
  existsb f (rev l) = existsb f l.
Proof.
  induction l as [|x l IH]; simpl; [done |].
  rewrite existsb_app, IH. simpl. rewrite orb_false_r. apply orb_comm.
Qed.

Lemma collapse_sublist stack its :
  fs.collapse stack its `sublist_of` rev stack ++ its.
Proof.
  revert stack. induction its as [|it its IH]; intros stack; simpl.
  - by rewrite app_nil_r.
  - assert (fs.collapse (it :: stack) its `sublist_of` rev stack ++ it :: its)
      as Hpush.
    { specialize (IH (it :: stack)). simpl in IH.
      by rewrite <- app_assoc in IH. }
    destruct (fs.is_dotdot it); [| done].
    destruct stack as [|top stack']; [apply (IH [it]) |].
    destruct (fs.is_dotdot top); [done |].
    simpl. rewrite <- app_assoc. etrans; [apply IH |].
    apply sublist_app; [done |]. simpl. by do 2 apply sublist_cons.
Qed.

Lemma rev_stack_head stack :
  dotdots_below stack ->
  existsb fs.is_dotdot stack = true ->
  exists it rest, rev stack = it :: rest /\ fs.is_dotdot it = true.
Proof.
  induction stack as [|top stack IH]; simpl; [done |].
  destruct (fs.is_dotdot top) eqn:Htop; simpl.
  - intros Hall _. destruct (rev stack) as [|it rest] eqn:Hrev.
    + by exists top, [].
    + exists it, (rest ++ [top]). split; [done |].
      rewrite Forall_forall in Hall. apply Hall.
      apply elem_of_rev_list. rewrite Hrev. by left.
  - intros Hbelow Hex. destruct (IH Hbelow Hex) as (it & rest & -> & Hit).
    by exists it, (rest ++ [top]).
Qed.

(** If anything of the collapsed path is dot-dot, its first item is. *)
Lemma collapse_dotdot_first stack its :
  dotdots_below stack ->
  existsb fs.is_dotdot (fs.collapse stack its) = true ->
  exists it rest, fs.collapse stack its = it :: rest /\ fs.is_dotdot it = true.
Proof.
  revert stack. induction its as [|it its IH]; intros stack Hbelow; simpl.
  - rewrite existsb_rev. by apply rev_stack_head.
  - destruct (fs.is_dotdot it) eqn:Hit.
    + destruct stack as [|top stack'].
      * apply IH. simpl. by rewrite Hit.
      * simpl in Hbelow. destruct (fs.is_dotdot top) eqn:Htop.
        -- apply IH. simpl. rewrite Hit. by constructor.
        -- by apply IH.
    + apply IH. simpl. by rewrite Hit.
Qed.

Lemma collapse_keeps_dotdot stack its :
  dotdots_below stack ->
  existsb fs.is_dotdot stack = true ->
  existsb fs.is_dotdot (fs.collapse stack its) = true.
Proof.
  revert stack. induction its as [|it its IH]; intros stack Hbelow Hex; simpl.
  - by rewrite existsb_rev.
  - destruct (fs.is_dotdot it) eqn:Hit.
    + destruct stack as [|top stack']; [done |].
      simpl in Hbelow, Hex. destruct (fs.is_dotdot top) eqn:Htop.
      * apply IH; simpl; rewrite Hit; [by constructor | done].
      * by apply IH.
    + apply IH; simpl; by rewrite Hit.
Qed.

(** Collapsing leaves a dot-dot exactly when the walk escapes. *)
Lemma collapse_escapes stack its :
  Forall (fun it => fs.is_dotdot it = false) stack ->
  Forall (fun it => fs.is_dot it = false) its ->
  existsb fs.is_dotdot (fs.collapse stack its)
  = escapes_root (List.length stack) (map fst its).
Proof.
  revert stack. induction its as [|it its IH]; intros stack Hstack Hits; simpl.
  - rewrite existsb_rev. induction Hstack as [|x l Hx _ IHl]; simpl; [done |].
    by rewrite Hx.
  - apply Forall_cons in Hits as [Hdot Hits]. unfold fs.is_dot in Hdot.
    rewrite Hdot. fold (fs.is_dotdot it).
    destruct (fs.is_dotdot it) eqn:Hit.
    + destruct stack as [|top stack']; simpl.
      * apply collapse_keeps_dotdot; simpl; by rewrite Hit.
      * apply Forall_cons in Hstack as [Htop Hstack]. rewrite Htop.
        by apply IH.
    + rewrite IH; [done | by constructor | done].
Qed.

Lemma escapes_root_skips_dots depth its :
  escapes_root depth
    (map fst (List.filter (fun it => negb (fs.is_dot it)) its))
  = escapes_root depth (map fst its).
Proof.
  revert depth. induction its as [|it its IH]; intros depth; simpl; [done |].
  unfold fs.is_dot at 1. destruct (fst it =? ".")%string eqn:Hdot; simpl.
  - apply IH.
  - rewrite Hdot. destruct (fst it =? "..")%string; [| apply IH].
    destruct depth; [done | apply IH].
Qed.

Lemma trim_dotdot_names its : map fst (fs.trim_dotdot its) = map fst its.
Proof.
  induction its as [|it its IH]; [done |].
  destruct its as [|it' its].
  - simpl. by destruct (fs.is_dotdot it).
  - change (fs.trim_dotdot (it :: it' :: its))
      with (it :: fs.trim_dotdot (it' :: its)).
    rewrite !map_cons. rewrite map_cons in IH. by rewrite IH.
Qed.

Lemma trim_dotdot_separated its :
  separated its -> separated (fs.trim_dotdot its).
Proof.
  induction its as [|it its IH]; [done |].
  destruct its as [|it' its].
  - simpl. by destruct (fs.is_dotdot it).
  - intros [Hit Hsep].
    change (fs.trim_dotdot (it :: it' :: its))
      with (it :: fs.trim_dotdot (it' :: its)).
    specialize (IH Hsep).
    destruct (fs.trim_dotdot (it' :: its)) eqn:Htrim; [done |].
    by split.
Qed.

Lemma trim_dotdot_Forall (P : string -> Prop) its :
  Forall (fun it => P (fst it)) its ->
  Forall (fun it => P (fst it)) (fs.trim_dotdot its).
Proof.
  intros H. apply Forall_forall. intros it Hit.
  apply (list_elem_of_fmap_2 fst) in Hit.
  change (fst <$> ?l) with (map fst l) in Hit.
  rewrite trim_dotdot_names in Hit.
  apply list_elem_of_fmap in Hit as (it' & Heq & Hit').
  rewrite Forall_forall in H. rewrite Heq. by apply H.
Qed.

Lemma trim_dotdot_unchanged its :
  Forall (fun it => fs.is_dotdot it = false) its -> fs.trim_dotdot its = its.
Proof.
  induction 1 as [|it its Hit _ IH]; [done |].
  destruct its as [|it' its]; simpl; [by rewrite Hit |].
  simpl in IH. by rewrite IH.
Qed.

Lemma collapse_unchanged stack its :
  Forall (fun it => fs.is_dotdot it = false) its ->
  fs.collapse stack its = rev stack ++ its.
Proof.
  intros H. revert stack.
  induction H as [|it its Hit _ IH]; intros stack; simpl.
  - by rewrite app_nil_r.
  - rewrite Hit, IH. simpl. by rewrite <- app_assoc.
Qed.

End Normal_form.

(** ** The normaliser *)

Section Normalize.
Variable pf : fs.Platform.
Implicit Types (its : list (string * bool)) (input : string).

Lemma root_name_end_empty : fs.root_name_end pf "" = 0.
Proof. by destruct pf. Qed.

Lemma root_name_end_dot s : fs.root_name_end pf (String "." s) = 0.
Proof. destruct pf; [done |]. by destruct s. Qed.

Lemma take_empty n s : sv.take n s = "" -> n = 0 \/ s = "".
Proof. destruct n, s; simpl; auto; done. Qed.

Lemma no_root_name p :
  fs.has_root_name pf p = false <-> fs.root_name_end pf p = 0.
Proof.
  unfold fs.has_root_name, fs.root_name. rewrite negb_false_iff, sv_empty_iff.
  split.
  - intros [H | ->]%take_empty; [done | apply root_name_end_empty].
  - intros ->. by destruct p.
Qed.

Lemma lexically_normal_text input :
  input <> "" ->
  fs.root_name_end pf input = 0 ->
  fs.lexically_normal pf input
  = let text :=
      (if fs.has_root_directory pf input
       then String (fs.preferred_separator pf) "" else "")
      +:+ fs.render (fs.preferred_separator pf) (normal_items pf input) in
    if sv.empty text then "." else text.
Proof.
  intros Hne H0. unfold fs.lexically_normal, normal_items, fs.root_name.
  destruct input as [|c input]; [done |]. simpl sv.empty. cbv iota.
  rewrite H0. done.
Qed.

Lemma normal_items_separated input : separated (normal_items pf input).
Proof.
  unfold normal_items. apply trim_dotdot_separated.
  assert (separated (fs.collapse []
            (List.filter (fun it => negb (fs.is_dot it)) (fs.items pf input))))
    as H.
  { eapply separated_sublist; [apply collapse_sublist |]. simpl.
    eapply separated_sublist; [apply filter_sublist |].
    apply items_are_separated. }
  destruct (fs.has_root_directory pf input); [| done].
  eapply separated_sublist; [apply filter_sublist | done].
Qed.

Lemma normal_items_sub (P : string -> Prop) input :
  Forall (fun it => P (fst it)) (fs.items pf input) ->
  Forall (fun it => P (fst it)) (normal_items pf input).
Proof.
  intros H. unfold normal_items. apply trim_dotdot_Forall.
  assert (Forall (fun it => P (fst it)) (fs.collapse []
            (List.filter (fun it => negb (fs.is_dot it)) (fs.items pf input))))
    as Hc.
  { eapply Forall_sublist; [apply collapse_sublist |]. simpl.
    eapply Forall_sublist; [apply filter_sublist | done]. }
  destruct (fs.has_root_directory pf input); [| done].
  eapply Forall_sublist; [apply filter_sublist | done].
Qed.

Lemma normal_items_filenames input :
  Forall (filename pf) (normal_items pf input).
Proof.
  apply (normal_items_sub
           (fun name => name <> "" /\ slash_free pf name = true)).
  apply items_are_filenames.
Qed.

Lemma normal_items_no_dot input :
  Forall (fun it => fs.is_dot it = false) (normal_items pf input).
Proof.
  unfold normal_items.
  apply (trim_dotdot_Forall (fun name => (name =? ".")%string = false)).
  assert (Forall (fun it => fs.is_dot it = false) (fs.collapse []
            (List.filter (fun it => negb (fs.is_dot it)) (fs.items pf input))))
    as Hc.
  { eapply Forall_sublist; [apply collapse_sublist |]. simpl.
    apply Forall_forall. intros it Hit.
    apply list_elem_of_In, filter_In in Hit as [_ Hit].
    by apply negb_true_iff in Hit. }
  destruct (fs.has_root_directory pf input); [| done].
  eapply Forall_sublist; [apply filter_sublist | done].
Qed.

Lemma existsb_trim_dotdot its :
  existsb fs.is_dotdot (fs.trim_dotdot its) = existsb fs.is_dotdot its.
Proof.
  induction its as [|it its IH]; [done |].
  destruct its as [|it' its].
  - simpl. destruct (fs.is_dotdot it) eqn:Hit; simpl; [| by rewrite Hit].
    unfold fs.is_dotdot in *. simpl. by rewrite Hit.
  - change (fs.trim_dotdot (it :: it' :: its))
      with (it :: fs.trim_dotdot (it' :: its)).
    cbn [existsb]. rewrite IH. done.
Qed.

(** Without a root directory the dot-dots that remain are those of a
    walk that escapes, and they come first. *)
Lemma normal_items_escape input :
  fs.has_root_directory pf input = false ->
  existsb fs.is_dotdot (normal_items pf input)
  = escapes_root 0 (map fst (fs.items pf input))
  /\ (existsb fs.is_dotdot (normal_items pf input) = true ->
      exists it rest,
        normal_items pf input = it :: rest /\ fs.is_dotdot it = true).
Proof.
  intros Hroot. unfold normal_items. rewrite Hroot.
  rewrite existsb_trim_dotdot. split.
  - rewrite collapse_escapes; [apply escapes_root_skips_dots | done |].
    apply Forall_forall. intros it Hit.
    apply list_elem_of_In, filter_In in Hit as [_ Hit].
    by apply negb_true_iff in Hit.
  - intros Hex.
    destruct (collapse_dotdot_first [] _ I Hex) as (it & rest & Heq & Hit).
    rewrite Heq. destruct rest as [|it' rest].
    + simpl. rewrite Hit. exists (fst it, false), []. split; [done |].
      unfold fs.is_dotdot in *. done.
    + by exists it, (fs.trim_dotdot (it' :: rest)).
Qed.

Lemma normal_items_rooted input :
  fs.has_root_directory pf input = true ->
  existsb fs.is_dotdot (normal_items pf input) = false.
Proof.
  intros Hroot. unfold normal_items. rewrite Hroot.
  rewrite existsb_trim_dotdot.
  induction (fs.collapse [] _) as [|it its IH]; simpl; [done |].
  destruct (fs.is_dotdot it) eqn:Hit; simpl; [done |]. by rewrite Hit.
Qed.

Lemma map_app_s (f : ascii -> ascii) (s t : string) :
  sv.map f (s +:+ t) = sv.map f s +:+ sv.map f t.
Proof. induction s as [|a s IH]; simpl; [done | by rewrite IH]. Qed.

Lemma map_slash_free (x : ascii) (name : string) :
  slash_free pf name = true ->
  sv.map (fun c => if fs.is_slash pf c then x else c) name = name.
Proof.
  induction name as [|a name IH]; simpl; [done |].
  intros [Ha Hname]%andb_true_iff. apply negb_true_iff in Ha.
  by rewrite Ha, IH.
Qed.

(** Rewriting the separators of a rendered path renders it with the
    other separator. *)
Lemma map_render (x sep : ascii) its :
  fs.is_slash pf sep = true ->
  Forall (filename pf) its ->
  sv.map (fun c => if fs.is_slash pf c then x else c) (fs.render sep its)
  = fs.render x its.
Proof.
  intros Hsep. induction 1 as [|[name follows] its [_ Hname] _ IH]; [done |].
  simpl in Hname. simpl. rewrite map_app_s, map_slash_free by done.
  destruct follows; simpl; by rewrite ?Hsep, IH.
Qed.

Lemma render_first sep its :
  its <> [] ->
  Forall (filename pf) its ->
  exists a t, fs.render sep its = String a t /\ fs.is_slash pf a = false.
Proof.
  intros Hne Hits. destruct Hits as [|[name follows] its [Hname Hfree] _];
    [done |].
  simpl in *. destruct name as [|a name]; [done |].
  simpl in Hfree. apply andb_true_iff in Hfree as [Ha _].
  apply negb_true_iff in Ha. simpl. eauto.
Qed.

Lemma render_not_dot sep its :
  its <> [] ->
  Forall (filename pf) its ->
  Forall (fun it => fs.is_dot it = false) its ->
  (fs.render sep its =? ".")%string = false.
Proof.
  intros Hne Hits Hdots.
  destruct Hits as [|[name follows] its [Hname Hfree] _]; [done |].
  apply Forall_cons in Hdots as [Hdot _]. unfold fs.is_dot in Hdot.
  simpl in *. apply String.eqb_neq. intros Heq.
  apply String.eqb_neq in Hdot. apply Hdot.
  destruct name as [|a name]; [done |]. simpl in Heq.
  injection Heq as -> Heq. by destruct name.
Qed.

Lemma erase_front_kept a t :
  fs.is_slash pf a = false ->
  detail.erase_front_slashes (String a t) = String a t.
Proof.
  intros Ha. simpl. destruct (a =? "/")%char eqn:Heq; [| done].
  apply Ascii.eqb_eq in Heq as ->. by rewrite is_slash_slash in Ha.
Qed.

Lemma pop_back_app name t :
  slash_free pf name = true ->
  detail.pop_back_slashes (name +:+ t) = name +:+ detail.pop_back_slashes t.
Proof.
  induction name as [|a name IH]; simpl; [done |].
  intros [Ha Hname]%andb_true_iff. apply negb_true_iff in Ha.
  destruct (a =? "/")%char eqn:Heq.
  - apply Ascii.eqb_eq in Heq as ->. by rewrite is_slash_slash in Ha.
  - simpl. by rewrite IH.
Qed.

Lemma pop_back_render its :
  separated its ->
  Forall (filename pf) its ->
  detail.pop_back_slashes (fs.render "/" its)
  = fs.render "/" (fs.flag_last (map fst its)).
Proof.
  induction its as [|[name follows] its IH]; intros Hsep Hits; [done |].
  apply Forall_cons in Hits as [[Hname Hfree] Hits]. simpl in Hname, Hfree.
  destruct its as [|it its].
  - simpl. rewrite pop_back_app by done. by destruct follows.
  - destruct Hsep as [Hf Hsep]. simpl in Hf. subst follows.
    change (map fst ((name, true) :: it :: its))
      with (name :: map fst (it :: its)).
    rewrite flag_last_cons by done.
    change (fs.render "/" ((name, true) :: it :: its))
      with (name +:+ String "/" (fs.render "/" (it :: its))).
    change (fs.render "/" ((name, true) :: ?l))
      with (name +:+ String "/" (fs.render "/" l)).
    rewrite pop_back_app by done. f_equal.
    change (detail.pop_back_slashes (String "/" ?t))
      with (if sv.empty (detail.pop_back_slashes t) then ""
            else String "/" (detail.pop_back_slashes t)).
    rewrite IH by done.
    destruct (render_first "/" (fs.flag_last (map fst (it :: its))))
      as (a & t & -> & _); [by destruct its | | done].
    apply Forall_forall. intros x Hx.
    apply (list_elem_of_fmap_2 fst) in Hx.
    change (fst <$> ?l) with (map fst l) in Hx.
    rewrite flag_last_names in Hx.
    apply list_elem_of_fmap in Hx as (y & Heq & Hy).
    rewrite Forall_forall in Hits. unfold filename. rewrite Heq.
    by apply Hits.
Qed.

Lemma items_of_text sep its :
  fs.is_slash pf sep = true ->
  separated its ->
  Forall (filename pf) its ->
  fs.root_name_end pf (fs.render sep its) = 0 ->
  fs.items pf (fs.render sep its) = its.
Proof.
  intros Hsep Hsepd Hits H0. unfold fs.items. rewrite H0.
  change (sv.drop 0 (fs.render sep its)) with (fs.render sep its).
  by apply items_of_render.
Qed.

Lemma normal_items_empty : normal_items pf "" = [].
Proof.
  unfold normal_items, fs.items. rewrite root_name_end_empty. simpl.
  by destruct (fs.has_root_directory pf "").
Qed.

Lemma elements_names p :
  forall name, name ∈ map fst (fs.items pf p) -> name ∈ fs.elements pf p.
Proof.
  intros name Hname. unfold fs.elements.
  rewrite !elem_of_app. right. right. by left.
Qed.

(** An input without root name and root directory whose dot-dots do
    not all cancel is rejected. *)
Lemma escaping_rejected input :
  fs.has_root_name pf input = false ->
  fs.has_root_directory pf input = false ->
  existsb fs.is_dotdot (normal_items pf input) = true ->
  detail.normalize_virtual_path pf input = None.
Proof.
  intros Hname Hroot Hex.
  destruct (normal_items_escape input Hroot) as [_ Hhead].
  destruct (Hhead Hex) as ([name follows] & rest & Heq & Hit).
  unfold fs.is_dotdot in Hit. simpl in Hit. apply String.eqb_eq in Hit as ->.
  assert (input <> "") as Hne.
  { intros ->. by rewrite normal_items_empty in Heq. }
  pose proof (normal_items_separated input) as Hsepd.
  pose proof (normal_items_filenames input) as Hfiles.
  set (text := fs.render (fs.preferred_separator pf) (normal_items pf input)).
  assert (exists t, text = String "." t) as [t Ht].
  { unfold text. rewrite Heq. simpl. eauto. }
  assert (fs.items pf text = normal_items pf input) as Hitems.
  { apply items_of_text; [apply is_slash_preferred | done.. |].
    fold text. rewrite Ht. apply root_name_end_dot. }
  assert (existsb (fun part => (part =? "..")%string) (fs.elements pf text)
          = true) as Hparts.
  { apply existsb_exists. exists "..". split; [| done].
    apply list_elem_of_In, elements_names. rewrite Hitems, Heq. by left. }
  unfold detail.normalize_virtual_path. rewrite Hname.
  rewrite lexically_normal_text by (done || by apply no_root_name).
  cbv zeta. rewrite Hroot.
  change ("" +:+ fs.render (fs.preferred_separator pf) (normal_items pf input))
    with text.
  destruct (sv.empty text) eqn:He; [by rewrite Ht in He |].
  by rewrite Hparts.
Qed.

Lemma accepted_no_root_name input n :
  detail.normalize_virtual_path pf input = Some n ->
  fs.has_root_name pf input = false.
Proof.
  unfold detail.normalize_virtual_path.
  by destruct (fs.has_root_name pf input).
Qed.

Lemma accepted_no_dotdot input n :
  detail.normalize_virtual_path pf input = Some n ->
  existsb fs.is_dotdot (normal_items pf input) = false.
Proof.
  intros Hacc. pose proof (accepted_no_root_name _ _ Hacc) as Hname.
  destruct (fs.has_root_directory pf input) eqn:Hroot.
  - by apply normal_items_rooted.
  - destruct (existsb fs.is_dotdot (normal_items pf input)) eqn:Hex; [| done].
    rewrite (escaping_rejected _ Hname Hroot Hex) in Hacc. done.
Qed.

(** What the normaliser returns: the filenames that remain, joined by
    single slashes. *)
Lemma normalize_output input n :
  detail.normalize_virtual_path pf input = Some n ->
  n = fs.render "/" (fs.flag_last (map fst (normal_items pf input))).
Proof.
  intros Hacc. pose proof (accepted_no_root_name _ _ Hacc) as Hname.
  revert Hacc. unfold detail.normalize_virtual_path. rewrite Hname.
  destruct (decide (input = "")) as [-> | Hne].
  { rewrite normal_items_empty. unfold fs.lexically_normal, fs.elements.
    simpl sv.empty. cbv iota.
    destruct (existsb _ _); [done |]. by intros [= <-]. }
  rewrite lexically_normal_text by (done || by apply no_root_name).
  cbv zeta.
  pose proof (normal_items_separated input) as Hsepd.
  pose proof (normal_items_filenames input) as Hfiles.
  pose proof (normal_items_no_dot input) as Hdots.
  destruct (normal_items pf input) as [|it its] eqn:Heq.
  { simpl fs.render. rewrite app_empty_r.
    destruct (fs.has_root_directory pf input); simpl sv.empty; cbv iota.
    - destruct (existsb _ _); [done |].
      unfold fs.generic_string. simpl. rewrite is_slash_preferred. simpl.
      by intros [= <-].
    - destruct (existsb _ _); [done |].
      assert (fs.generic_string pf "." = ".") as -> by (by destruct pf).
      simpl. by intros [= <-]. }
  rewrite <- Heq in *.
  assert (normal_items pf input <> []) as Hnil by (by rewrite Heq).
  destruct (render_first (fs.preferred_separator pf) _ Hnil Hfiles)
    as (a & t & Hrender & Ha).
  destruct (render_first "/" _ Hnil Hfiles) as (a' & t' & Hrender' & Ha').
  set (text :=
         (if fs.has_root_directory pf input
          then String (fs.preferred_separator pf) "" else "")
         +:+ fs.render (fs.preferred_separator pf) (normal_items pf input)).
  assert (sv.empty text = false) as ->.
  { unfold text. rewrite Hrender.
    by destruct (fs.has_root_directory pf input). }
  destruct (existsb _ (fs.elements pf text)); [done |].
  assert (fs.generic_string pf text
          = (if fs.has_root_directory pf input then "/" else "")
            +:+ fs.render "/" (normal_items pf input)) as ->.
  { unfold fs.generic_string, text. rewrite map_app_s.
    rewrite (map_render "/") by (apply is_slash_preferred || done).
    destruct (fs.has_root_directory pf input); simpl; [| done].
    by rewrite is_slash_preferred. }
  assert (detail.pop_back_slashes (fs.render "/" (normal_items pf input))
          = fs.render "/" (fs.flag_last (map fst (normal_items pf input))))
    as Hpop by (by apply pop_back_render).
  assert ((fs.render "/" (fs.flag_last (map fst (normal_items pf input)))
           =? ".")%string = false) as Hnotdot.
  { apply render_not_dot.
    - rewrite Heq. simpl. by destruct (map fst its).
    - apply Forall_forall. intros x Hx.
      apply (list_elem_of_fmap_2 fst) in Hx.
      change (fst <$> ?l) with (map fst l) in Hx.
      rewrite flag_last_names in Hx.
      apply list_elem_of_fmap in Hx as (y & Hxy & Hy).
      rewrite Forall_forall in Hfiles. unfold filename. rewrite Hxy.
      by apply Hfiles.
    - apply Forall_forall. intros x Hx.
      apply (list_elem_of_fmap_2 fst) in Hx.
      change (fst <$> ?l) with (map fst l) in Hx.
      rewrite flag_last_names in Hx.
      apply list_elem_of_fmap in Hx as (y & Hxy & Hy).
      rewrite Forall_forall in Hdots. unfold fs.is_dot. rewrite Hxy.
      by apply Hdots. }
  assert (a' <> "/"%char) as Hna'.
  { intros ->. by rewrite is_slash_slash in Ha'. }
  assert (forall R, detail.erase_front_slashes (String "/" R)
                    = detail.erase_front_slashes R) as Hfront by done.
  destruct (fs.has_root_directory pf input); cbn [String.append].
  - assert ((String "/" (fs.render "/" (normal_items pf input)) =? ".")%string
            || (String "/" (fs.render "/" (normal_items pf input)) =? "/")%string
            = false) as ->.
    { apply orb_false_iff. split; apply String.eqb_neq; [done |].
      rewrite Hrender'. done. }
    rewrite Hfront, Hrender', (erase_front_kept _ _ Ha'), <- Hrender'.
    rewrite Hpop, Hnotdot. by intros [= <-].
  - assert ((fs.render "/" (normal_items pf input) =? ".")%string
            || (fs.render "/" (normal_items pf input) =? "/")%string
            = false) as ->.
    { apply orb_false_iff. split; [by apply render_not_dot |].
      apply String.eqb_neq. rewrite Hrender'. by intros [= -> _]. }
    rewrite Hrender', (erase_front_kept _ _ Ha'), <- Hrender'.
    rewrite Hpop, Hnotdot. by intros [= <-].
Qed.

End Normalize.

(** ** Root names do not depend on which separator is written *)

Section Windows_root_names.

Lemma windows_slash c :
  fs.is_slash fs.windows c = true -> c = "/"%char \/ c = "\"%char.
Proof.
  unfold fs.is_slash. intros [H | H]%orb_true_iff;
    apply Ascii.eqb_eq in H; auto.
Qed.

Lemma to_backslash_is_slash c :
  fs.is_slash fs.windows (to_backslash c) = fs.is_slash fs.windows c.
Proof.
  unfold to_backslash. destruct (fs.is_slash fs.windows c) eqn:H; done.
Qed.

Lemma to_backslash_drive c :
  fs.is_drive_letter (to_backslash c) = fs.is_drive_letter c.
Proof.
  unfold to_backslash. destruct (fs.is_slash fs.windows c) eqn:H; [| done].
  by destruct (windows_slash _ H) as [-> | ->].
Qed.

Lemma to_backslash_eqb c k :
  fs.is_slash fs.windows k = false ->
  (to_backslash c =? k)%char = (c =? k)%char.
Proof.
  intros Hk. unfold to_backslash.
  destruct (fs.is_slash fs.windows c) eqn:H; [| done].
  assert (forall x, fs.is_slash fs.windows x = true -> (x =? k)%char = false)
    as Hne.
  { intros x Hx. apply Ascii.eqb_neq. intros ->. congruence. }
  rewrite (Hne c H). by apply Hne.
Qed.

Lemma find_slash_to_backslash s :
  fs.find_slash fs.windows (sv.map to_backslash s)
  = fs.find_slash fs.windows s.
Proof.
  induction s as [|a s IH]; cbn [sv.map fs.find_slash]; [done |].
  rewrite to_backslash_is_slash, IH. done.
Qed.

Lemma root_name_end_to_backslash s :
  fs.root_name_end fs.windows (sv.map to_backslash s)
  = fs.root_name_end fs.windows s.
Proof.
  unfold fs.root_name_end.
  destruct s as [|a [|b r]]; [done | done |].
  destruct r as [|c [|d [|e r']]]; cbn [sv.map];
    rewrite ?to_backslash_is_slash, ?to_backslash_drive,
      ?(to_backslash_eqb _ ":"), ?(to_backslash_eqb _ "?"),
      ?(to_backslash_eqb _ "."), ?find_slash_to_backslash by done;
    try done;
    cbn [fs.find_slash];
    rewrite ?to_backslash_is_slash, ?find_slash_to_backslash;
    cbn [fs.find_slash];
    by rewrite ?to_backslash_is_slash, ?find_slash_to_backslash.
Qed.

Lemma root_name_end_to_preferred pf s :
  fs.root_name_end pf (fs.to_preferred pf s) = fs.root_name_end pf s.
Proof. destruct pf; [done |]. apply root_name_end_to_backslash. Qed.

End Windows_root_names.

(** ** Normal forms are fixed points *)

Section Fixed_points.
Variable pf : fs.Platform.

Lemma normalize_empty : detail.normalize_virtual_path pf "" = Some "".
Proof. by destruct pf. Qed.

Lemma last_flag_last names :
  last (fs.flag_last names) = (fun name => (name, false)) <$> last names.
Proof.
  induction names as [|x names IH]; [done |].
  destruct names as [|y names]; [done |].
  rewrite flag_last_cons by done.
  change (last ((x, true) :: fs.flag_last (y :: names)))
    with (match fs.flag_last (y :: names) with
          | [] => Some (x, true)
          | _ :: _ => last (fs.flag_last (y :: names))
          end).
  rewrite IH. by destruct names.
Qed.

Lemma flag_last_plain names :
  Forall (plain_name pf) names ->
  Forall (filename pf) (fs.flag_last names)
  /\ Forall (fun it => fs.is_dot it = false) (fs.flag_last names)
  /\ Forall (fun it => fs.is_dotdot it = false) (fs.flag_last names).
Proof.
  intros H. rewrite !Forall_forall. rewrite Forall_forall in H.
  assert (forall it, it ∈ fs.flag_last names -> plain_name pf (fst it)) as Hit.
  { intros it Hit. apply H. apply (list_elem_of_fmap_2 fst) in Hit.
    change (fst <$> ?l) with (map fst l) in Hit.
    by rewrite flag_last_names in Hit. }
  split; [| split]; intros it Hin;
    destruct (Hit it Hin) as (? & ? & ? & ?); done.
Qed.

Lemma normal_form_is_fixed names :
  Forall (plain_name pf) names ->
  fs.root_name_end pf (fs.render "/" (fs.flag_last names)) = 0 ->
  detail.normalize_virtual_path pf (fs.render "/" (fs.flag_last names))
  = Some (fs.render "/" (fs.flag_last names)).
Proof.
  intros Hnames H0.
  destruct (decide (names = [])) as [-> | Hne]; [apply normalize_empty |].
  destruct (flag_last_plain names Hnames) as (Hfiles & Hdots & Hdotdots).
  pose proof (separated_flag_last names) as Hsepd.
  set (its := fs.flag_last names) in *.
  set (n := fs.render "/" its) in *.
  assert (its <> []) as Hits.
  { unfold its. destruct names as [|x [|y names]]; done. }
  destruct (render_first pf "/" its Hits Hfiles) as (a & t & Hn & Ha).
  fold n in Hn.
  assert (fs.has_root_name pf n = false) as Hname by (by apply no_root_name).
  assert (fs.has_root_directory pf n = false) as Hroot.
  { unfold fs.has_root_directory. rewrite H0.
    change (sv.drop 0 n) with n. by rewrite Hn. }
  assert (fs.items pf n = its) as Hitems.
  { apply items_of_text; [apply is_slash_slash | done..]. }
  assert (normal_items pf n = its) as Hnormal.
  { unfold normal_items. rewrite Hitems, Hroot.
    rewrite filter_all.
    2:{ eapply Forall_impl; [exact Hdots |]. intros it Hit. by rewrite Hit. }
    rewrite collapse_unchanged by done. simpl.
    by apply trim_dotdot_unchanged. }
  set (text := fs.render (fs.preferred_separator pf) its).
  destruct (render_first pf (fs.preferred_separator pf) its Hits Hfiles)
    as (b & u & Htext & Hb).
  fold text in Htext.
  assert (fs.lexically_normal pf n = text) as Hlex.
  { rewrite lexically_normal_text; [| by rewrite Hn | done].
    cbv zeta. rewrite Hroot, Hnormal. cbn [String.append]. fold text.
    by rewrite Htext. }
  assert (text = fs.to_preferred pf n) as Hpreferred.
  { unfold fs.to_preferred, n, text. symmetry.
    apply map_render; [apply is_slash_slash | done]. }
  assert (fs.root_name_end pf text = 0) as Htext0.
  { by rewrite Hpreferred, root_name_end_to_preferred. }
  assert (fs.elements pf text = names) as Hparts.
  { unfold fs.elements.
    assert (fs.has_root_name pf text = false) as -> by (by apply no_root_name).
    assert (fs.has_root_directory pf text = false) as ->.
    { unfold fs.has_root_directory. rewrite Htext0.
      change (sv.drop 0 text) with text. by rewrite Htext. }
    assert (fs.items pf text = its) as ->.
    { apply items_of_text; [apply is_slash_preferred | done..]. }
    unfold its at 2. rewrite last_flag_last.
    unfold its. rewrite flag_last_names. simpl.
    destruct (last names); simpl; by rewrite app_nil_r. }
  assert (fs.generic_string pf text = n) as Hgeneric.
  { unfold fs.generic_string, n, text.
    apply map_render; [apply is_slash_preferred | done]. }
  assert (existsb (fun part => (part =? "..")%string) names = false) as Hok.
  { clear -Hnames. induction Hnames as [|x l (_ & _ & _ & Hx) _ IH]; [done |].
    simpl. by rewrite Hx. }
  assert ((n =? ".")%string = false) as Hnotdot
    by (by apply (render_not_dot pf)).
  assert ((n =? "/")%string = false) as Hnotroot.
  { apply String.eqb_neq. rewrite Hn. intros [= -> _].
    by rewrite is_slash_slash in Ha. }
  assert (detail.erase_front_slashes n = n) as Hfront.
  { rewrite Hn. by apply (erase_front_kept pf). }
  assert (detail.pop_back_slashes n = n) as Hback.
  { unfold n. rewrite (pop_back_render pf) by done.
    unfold its. by rewrite flag_last_names. }
  unfold detail.normalize_virtual_path.
  rewrite Hname, Hlex, Hparts, Hok, Hgeneric, Hnotdot, Hnotroot.
  cbn [orb]. by rewrite Hfront, Hback, Hnotdot.
Qed.

End Fixed_points.

(** ** What the normaliser rejects, and what it returns *)

Section Normaliser_properties.
Variable pf : fs.Platform.

(** C5 (as amended). The normaliser rejects an input that has a root
    name (a drive, a server).  It rejects an input without root
    directory in which, walking the filenames from the virtual root, a
    dot-dot steps above the root. *)
Theorem normalize_rejects_root_name_and_escape input :
  (fs.has_root_name pf input = true ->
   detail.normalize_virtual_path pf input = None)
  /\ (fs.has_root_directory pf input = false ->
      escapes_root 0 (map fst (fs.items pf input)) = true ->
      detail.normalize_virtual_path pf input = None).
Proof.
  split.
  - intros Hname. unfold detail.normalize_virtual_path. by rewrite Hname.
  - intros Hroot Hescapes.
    destruct (fs.has_root_name pf input) eqn:Hname.
    + unfold detail.normalize_virtual_path. by rewrite Hname.
    + apply escaping_rejected; [done.. |].
      destruct (normal_items_escape pf input Hroot) as [-> _]. done.
Qed.

(** Every accepted input normalises to plain names joined by single
    slashes: no empty name, no separator inside a name, no dot, no
    dot-dot, no slash in front or at the end. *)
Lemma normalize_gives_plain_names input n :
  detail.normalize_virtual_path pf input = Some n ->
  exists names,
    Forall (plain_name pf) names /\ n = fs.render "/" (fs.flag_last names).
Proof.
  intros Hacc. exists (map fst (normal_items pf input)).
  split; [| by apply normalize_output].
  pose proof (normal_items_filenames pf input) as Hfiles.
  pose proof (normal_items_no_dot pf input) as Hdots.
  pose proof (accepted_no_dotdot pf _ _ Hacc) as Hdotdots.
  apply Forall_forall. intros name Hname.
  change (map fst ?l) with (fst <$> l) in Hname.
  apply list_elem_of_fmap in Hname as (it & -> & Hit).
  rewrite Forall_forall in Hfiles. rewrite Forall_forall in Hdots.
  destruct (Hfiles it Hit) as [Hne Hfree]. specialize (Hdots it Hit).
  repeat split; [done.. |].
  destruct (fst it =? "..")%string eqn:Hdd; [| done].
  enough (existsb fs.is_dotdot (normal_items pf input) = true) by congruence.
  apply existsb_exists. exists it. split; [by apply list_elem_of_In | done].
Qed.

(** Normalising is idempotent on every input whose normalised form
    does not itself start with a root name; under the POSIX grammar,
    where there are no root names, on every accepted input. *)
Lemma normalize_idempotent_without_root_name input n :
  detail.normalize_virtual_path pf input = Some n ->
  fs.has_root_name pf n = false ->
  detail.normalize_virtual_path pf n = Some n.
Proof.
  intros Hacc Hname.
  destruct (normalize_gives_plain_names _ _ Hacc) as (names & Hnames & ->).
  apply normal_form_is_fixed; [done |]. by apply no_root_name.
Qed.

End Normaliser_properties.

Lemma normalize_idempotent_posix input n :
  detail.normalize_virtual_path fs.posix input = Some n ->
  detail.normalize_virtual_path fs.posix n = Some n.
Proof.
  intros Hacc. by apply (normalize_idempotent_without_root_name _ input).
Qed.

(** ** Two findings, at concrete inputs *)

(** C4. With [allow_duplicates] the set [seen] is never filled, so a
    listing that only has synthetic entries hands them to the callback
    and still returns [not_found]; without it the same listing returns
    [ok]. *)
Theorem list_dirs_duplicates_not_found :
  Vfs.list_dirs fs.posix "" true [mount_at "shaders" empty_store] []
  = (not_found, ["shaders"])
  /\ Vfs.list_dirs fs.posix "" false [mount_at "shaders" empty_store] []
     = (ok, ["shaders"]).
Proof. split; vm_compute; reflexivity. Qed.

(** C8. Under the Windows grammar the normaliser accepts [./C:] and
    returns [C:], which it rejects as an input: a drive. *)
Theorem normalize_returns_a_drive :
  detail.normalize_virtual_path fs.windows "./C:" = Some "C:"
  /\ detail.normalize_virtual_path fs.windows "C:" = None.
Proof. split; vm_compute; reflexivity. Qed.

(** C5, as first stated, fails: an input with a root directory is
    accepted, and its dot-dots above the root are dropped. *)
Lemma rooted_dotdot_is_clamped :
  fs.has_root_directory fs.posix "/../a" = true
  /\ escapes_root 0 (map fst (fs.items fs.posix "/../a")) = true
  /\ detail.normalize_virtual_path fs.posix "/../a" = Some "a"
  /\ detail.normalize_virtual_path fs.windows "/../a" = Some "a".
Proof. repeat split; vm_compute; reflexivity. Qed.

(** ** The properties at work on a small overlay *)

Lemma table_is_sound extensions w :
  Forall (sound (files_request extensions w) "content") table.
Proof.
  repeat constructor; intros r names (relative & Hrel & Hreq);
    vm_compute in Hrel; try discriminate;
    injection Hrel as <-; vm_compute in Hreq; by injection Hreq as <- _.
Defined.

Lemma failed_mutation_keeps_table_witness :
  Vfs.mount fs.posix "../mods" (Some (CannedBackend base)) table
  = (false, table)
  /\ detail.normalize_virtual_path fs.posix "../mods" = None
  /\ Vfs.unmount fs.posix "music" table = (false, table).
Proof.
  split; [vm_compute; reflexivity |]. split.
  - destruct (proj1 (failed_mutation_keeps_table fs.posix "../mods" table)
                (Some (CannedBackend base)) table) as [_ [H | H]].
    + vm_compute. reflexivity.
    + discriminate H.
    + exact H.
  - vm_compute. reflexivity.
Defined.

Lemma read_file_newest_hit_wins_witness :
  detail.normalize_virtual_path fs.posix "content//./hello.txt"
  = Some "content/hello.txt"
  /\ Vfs.read_file fs.posix "content//./hello.txt" table []
     = Some {| bytes := text "B" |}.
Proof.
  split; [vm_compute; reflexivity |].
  destruct (read_file_newest_hit_wins fs.posix "content//./hello.txt"
              "content/hello.txt" table []) as (_ & _ & H).
  - vm_compute. reflexivity.
  - apply (H [] (mount_at "content" base) (mount_at "content" overlay)
             [mount_at "shaders" empty_store] {| bytes := text "A" |}).
    + reflexivity.
    + reflexivity.
    + exists "hello.txt". split; vm_compute; reflexivity.
    + exists "hello.txt". split; vm_compute; reflexivity.
    + constructor; [| constructor]. intros relative Hrel.
      vm_compute in Hrel. discriminate Hrel.
Defined.

Lemma write_file_first_decisive_answer_witness :
  Vfs.write_file fs.posix "content/out.txt" (text "out") table []
  = (ok, [("out.txt", text "out")]).
Proof.
  destruct (write_file_first_decisive_answer fs.posix "content/out.txt"
              "content/out.txt" (text "out") table []) as (H & _ & _).
  - vm_compute. reflexivity.
  - apply (H [] (mount_at "content" base)
             [mount_at "content" overlay; mount_at "shaders" empty_store]
             "out.txt" ok []).
    + reflexivity.
    + simpl rev. apply passes_no_match; [vm_compute; reflexivity |].
      apply (passes_answer soft "content/out.txt" (text "out")
               (mount_at "content" overlay) [] "out.txt" not_supported [] []).
      * vm_compute. reflexivity.
      * vm_compute. reflexivity.
      * split; discriminate.
      * apply passes_nil.
    + vm_compute. reflexivity.
    + vm_compute. reflexivity.
    + left. reflexivity.
Defined.

Lemma table_serves_content :
  ~ Forall (no_match (World := list (string * list byte)) "content") table.
Proof.
  intros H. apply Forall_cons in H as [H _]. vm_compute in H. discriminate H.
Defined.

Lemma list_files_is_union_witness :
  fst (Vfs.list_files fs.posix "content" ["txt"] false table []) = ok
  /\ NoDup (snd (Vfs.list_files fs.posix "content" ["txt"] false table [])).
Proof.
  destruct (list_files_is_union fs.posix "content" "content" ["txt"] table [])
    as (_ & _ & H & _).
  - vm_compute. reflexivity.
  - destruct (H (table_is_sound ["txt"] []) table_serves_content)
      as [Hok Hnodup].
    split; [exact (proj1 (Hok false)) | exact Hnodup].
Defined.

Lemma list_files_newest_contributor_emits_witness :
  exists before during after,
    snd (Vfs.list_files fs.posix "content" ["txt"] false table [])
    = before ++ during ++ after
    /\ snd (Vfs.list_files fs.posix "content" ["txt"] false
              [mount_at "shaders" empty_store] []) = before
    /\ snd (Vfs.list_files fs.posix "content" ["txt"] false
              [mount_at "content" overlay; mount_at "shaders" empty_store] [])
       = before ++ during
    /\ during = first_occurrences (list_to_set before)
                  ["hello.txt"; "overlay.txt"]
    /\ "hello.txt" ∈ during /\ ("hello.txt" ∉ before)
    /\ ("hello.txt" ∉ after)
    /\ NoDup (before ++ during ++ after).
Proof.
  apply (list_files_newest_contributor_emits fs.posix "content" "content"
           ["txt"] table [] [mount_at "content" base]
           (mount_at "content" overlay) [mount_at "shaders" empty_store] ok).
  - vm_compute. reflexivity.
  - reflexivity.
  - exists "". split; vm_compute; reflexivity.
  - left.
  - constructor; [| constructor]. intros r' names' (relative & Hrel & _).
    vm_compute in Hrel. discriminate Hrel.
Defined.

Lemma exists_dir_of_mount_prefixes_witness :
  Vfs.exists_dir fs.posix "a/b/" [mount_at "a/b/c" empty_store] [] = true
  /\ Vfs.exists_dir fs.posix "a" [mount_at "a/b/c" empty_store] [] = true.
Proof.
  split.
  - destruct (exists_dir_of_mount_prefixes fs.posix "a/b/" "a/b"
                [mount_at "a/b/c" empty_store] []) as [_ H].
    + vm_compute. reflexivity.
    + apply (H ltac:(discriminate) (mount_at "a/b/c" empty_store)).
      * left.
      * right. exists "c". reflexivity.
  - destruct (exists_dir_of_mount_prefixes fs.posix "a" "a"
                [mount_at "a/b/c" empty_store] []) as [_ H].
    + vm_compute. reflexivity.
    + apply (H ltac:(discriminate) (mount_at "a/b/c" empty_store)).
      * left.
      * right. exists "b/c". reflexivity.
Defined.

Lemma list_dirs_shows_mount_points_witness :
  "shaders" ∈ snd (Vfs.list_dirs fs.posix "" true
                     [mount_at "shaders" empty_store] [])
  /\ "a" ∈ snd (Vfs.list_dirs fs.posix "" false
                  [mount_at "a/b/c" empty_store] []).
Proof.
  split.
  - apply (list_dirs_shows_mount_points fs.posix "" ""
             [mount_at "shaders" empty_store] []
             (mount_at "shaders" empty_store) "shaders").
    + vm_compute. reflexivity.
    + left.
    + split; [reflexivity |]. exists "". split; [by left |].
      split; [reflexivity | discriminate].
  - apply (list_dirs_shows_mount_points fs.posix "" ""
             [mount_at "a/b/c" empty_store] []
             (mount_at "a/b/c" empty_store) "a").
    + vm_compute. reflexivity.
    + left.
    + split; [reflexivity |]. exists "/b/c". split; [right; by exists "b/c" |].
      split; [reflexivity | discriminate].
Defined.

Lemma normalize_rejects_root_name_and_escape_witness :
  detail.normalize_virtual_path fs.windows "C:/game/data" = None
  /\ detail.normalize_virtual_path fs.posix "mods/../../etc" = None.
Proof.
  split.
  - apply (proj1 (normalize_rejects_root_name_and_escape fs.windows
                    "C:/game/data")).
    vm_compute. reflexivity.
  - apply (proj2 (normalize_rejects_root_name_and_escape fs.posix
                    "mods/../../etc")).
    + vm_compute. reflexivity.
    + vm_compute. reflexivity.
Defined.

(** * Further properties of the code *)

(** ** The resolver helpers *)

Section Resolver.

Lemma app_inv_length (a b c d : string) :
  a +:+ b = c +:+ d -> String.length a = String.length c -> a = c /\ b = d.
Proof.
  revert c. induction a as [|x a IH]; intros [|y c]; simpl; try done.
  intros [= -> H] [= Hlen]. destruct (IH _ H Hlen) as [-> ->]. done.
Qed.

Lemma app_not_self (p r : string) (c : ascii) : p +:+ String c r <> p.
Proof.
  intros H. apply (f_equal String.length) in H. rewrite length_app in H.
  simpl in H. lia.
Qed.

(** The test both helpers make: [s] is longer than [p], starts with it
    and goes on with a slash. *)
Lemma below_split (s p : string) :
  (String.length p <? String.length s)%nat && sv.compare0 s p
  && sv.at_is s (String.length p) "/" = true
  <-> exists r, s = p +:+ String "/" r.
Proof.
  split.
  - intros [[_ Hpre]%andb_true_iff Hat]%andb_true_iff.
    apply starts_with_split in Hpre as [r ->].
    apply at_is_split in Hat as (p' & r' & Heq & Hlen).
    apply app_inv_length in Heq as [_ ->]; [| done]. by exists r'.
  - intros [r ->]. rewrite length_app. simpl.
    unfold sv.compare0. rewrite starts_with_app, at_is_app, Ascii.eqb_refl.
    rewrite !andb_true_r. apply Nat.ltb_lt. lia.
Qed.

Lemma drop_below (p r : string) (c : ascii) :
  sv.drop (String.length p + 1) (p +:+ String c r) = r.
Proof.
  induction p as [|a p IH]; simpl; [by destruct r | done].
Qed.

Lemma relative_to_mount_cases (full mount relative : string) :
  detail.relative_to_mount full mount = Some relative <->
  (mount = "" /\ relative = full)
  \/ (mount <> "" /\ full = mount /\ relative = "")
  \/ (mount <> "" /\ full = mount +:+ "/" +:+ relative).
Proof.
  unfold detail.relative_to_mount.
  destruct mount as [|c mount]; simpl sv.empty; cbv iota.
  { split; [intros [= ->]; by left | ].
    intros [[_ ->] | [[? _] | [? _]]]; done. }
  set (m := String c mount).
  destruct (String.eqb_spec full m) as [-> | Hne].
  { split; [intros [= <-]; right; left; done |].
    intros [[? _] | [(_ & _ & ->) | [_ H]]]; [done.. |].
    symmetry in H. by apply app_not_self in H. }
  destruct ((String.length m <? String.length full)%nat && sv.compare0 full m
            && sv.at_is full (String.length m) "/") eqn:Hcond.
  - apply below_split in Hcond as [r ->]. unfold sv.substr.
    rewrite drop_below. split.
    + intros [= ->]. right. right. done.
    + intros [[? _] | [(_ & ? & _) | [_ H]]]; [done.. |].
      apply app_inv_head_s in H. by injection H as ->.
  - split; [done |].
    intros [[? _] | [(_ & ? & _) | [_ H]]]; [done.. |].
    exfalso. assert (exists r, full = m +:+ String "/" r) as Hex by eauto.
    apply below_split in Hex. congruence.
Qed.

(** X1. [relative_to_mount] answers exactly in three cases: under the
    empty mount the relative path is the full path; at the mount
    itself it is empty; below the mount it is what follows
    [mount + "/"].  So the mount, a slash and the relative path give
    the full path back, and a path that merely starts with the same
    characters ([a/bc] against [a/b]) is not under the mount. *)
Theorem relative_to_mount_iff (full mount relative : string) :
  detail.relative_to_mount full mount = Some relative <->
  (mount = "" /\ relative = full)
  \/ (mount <> "" /\ full = mount /\ relative = "")
  \/ (mount <> "" /\ full = mount +:+ "/" +:+ relative).
Proof. apply relative_to_mount_cases. Qed.

Lemma find_split (c : ascii) (s : string) (k : nat) :
  sv.find c s = Some k ->
  exists a b, s = a +:+ String c b /\ String.length a = k
              /\ sv.find c a = None.
Proof.
  revert k. induction s as [|x s IH]; intros k; simpl; [done |].
  destruct (Ascii.eqb_spec x c) as [-> | Hne].
  - intros [= <-]. by exists "", s.
  - destruct (sv.find c s) as [j|]; simpl; [| done]. intros [= <-].
    destruct (IH j eq_refl) as (a & b & -> & <- & Hnone).
    exists (String x a), b. repeat split. simpl.
    destruct (Ascii.eqb_spec x c); [done |]. by rewrite Hnone.
Qed.

Lemma first_segment (s segment : string) :
  sv.substr 0 (sv.find "/" s) s = segment ->
  sv.find "/" segment = None
  /\ exists rest,
       (rest = "" \/ exists rest', rest = String "/" rest')
       /\ s = segment +:+ rest.
Proof.
  destruct (sv.find "/" s) as [k|] eqn:Hfind; simpl.
  - destruct (find_split _ _ _ Hfind) as (a & b & -> & <- & Hnone).
    change (sv.drop 0 (a +:+ String "/" b)) with (a +:+ String "/" b).
    rewrite take_app. intros <-. split; [done |].
    exists (String "/" b). split; [right; by exists b | done].
  - change (sv.drop 0 s) with s. intros <-. split; [done |].
    exists "". split; [by left | by rewrite app_empty_r].
Qed.

(** X2. [child_mount_name] answers exactly when the mount lies
    strictly below the parent, and with its first segment there: a
    name without slash.  The empty mount and the parent's own mount
    have no child name. *)
Theorem child_mount_name_iff (parent mount child : string) :
  detail.child_mount_name parent mount = Some child <->
  next_segment_below parent mount child.
Proof.
  split; [| apply child_mount_name_below].
  unfold detail.child_mount_name, next_segment_below.
  destruct (sv.empty mount) eqn:Hmount; [done |].
  destruct (sv.empty parent) eqn:Hparent.
  - intros [= Hcut]. destruct (first_segment _ _ Hcut) as (Hseg & rest & Hrest & ->).
    split; [done |]. exists rest. split; [done |]. split; [done |].
    intros H. by rewrite H in Hmount.
  - destruct (String.length mount <=? String.length parent)%nat eqn:Hlen;
      [done |].
    destruct (sv.compare0 mount parent && sv.at_is mount (String.length parent) "/")
      eqn:Hcond.
    2:{ apply andb_false_iff in Hcond as [-> | ->]; simpl; [done |].
        by rewrite orb_true_r. }
    apply andb_true_iff in Hcond as [Hpre Hat]. rewrite Hpre, Hat. simpl.
    assert (exists r, mount = parent +:+ String "/" r) as [r ->].
    { apply below_split. rewrite Hpre, Hat, !andb_true_r.
      apply Nat.ltb_lt. apply Nat.leb_gt in Hlen. lia. }
    rewrite drop_below. intros [= Hcut].
    destruct (first_segment _ _ Hcut) as (Hseg & rest & Hrest & ->).
    split; [done |]. by exists rest.
Qed.

Lemma with_dot_iff (ext entry : string) :
  sv.empty entry = false ->
  (if detail.front_is entry "."
   then (ext =? entry)%string
   else (String.length ext =? String.length entry + 1)%nat
        && detail.front_is ext "."
        && (sv.substr 1 None ext =? entry)%string) = true
  <-> ext = with_dot entry.
Proof.
  intros Hentry. unfold with_dot.
  destruct (detail.front_is entry "."); [apply String.eqb_eq |].
  split.
  - intros [[_ Hfront]%andb_true_iff Hrest]%andb_true_iff.
    destruct ext as [|a ext]; [done |]. simpl in Hfront, Hrest.
    apply Ascii.eqb_eq in Hfront as ->.
    replace (sv.drop 0 ext) with ext in Hrest by (by destruct ext).
    by apply String.eqb_eq in Hrest as ->.
  - intros ->. simpl. rewrite Nat.add_1_r, Nat.eqb_refl. simpl.
    replace (sv.drop 0 entry) with entry by (by destruct entry).
    apply String.eqb_refl.
Qed.

Lemma extension_matches_loop_iff (ext : string) (entries : list string) :
  detail.extension_matches_loop ext entries = true <->
  exists entry, entry ∈ entries /\ entry <> "" /\ ext = with_dot entry.
Proof.
  induction entries as [|entry entries IH]; simpl.
  - split; [done |]. by intros (? & ?%elem_of_nil & _).
  - destruct (sv.empty entry) eqn:Hentry.
    { apply sv_empty_iff in Hentry as ->. rewrite IH. split.
      - intros (e & ? & ? & ?). exists e. split; [by right | done].
      - intros (e & [-> | ?]%elem_of_cons & ? & ?); [done | eauto]. }
    pose proof (with_dot_iff ext entry Hentry) as Hdot.
    assert (entry <> "") as Hne by (intros ->; done).
    destruct (detail.front_is entry ".").
    + destruct (ext =? entry)%string eqn:Heq.
      * split; [| done]. intros _. exists entry.
        split; [by left |]. split; [done |]. by apply Hdot.
      * rewrite IH. split.
        -- intros (e & ? & ? & ?). exists e. split; [by right | done].
        -- intros (e & [-> | ?]%elem_of_cons & ? & Hext); [| eauto].
           apply Hdot in Hext. congruence.
    + destruct (_ && _) eqn:Heq.
      * split; [| done]. intros _. exists entry.
        split; [by left |]. split; [done |]. by apply Hdot.
      * rewrite IH. split.
        -- intros (e & ? & ? & ?). exists e. split; [by right | done].
        -- intros (e & [-> | ?]%elem_of_cons & ? & Hext); [| eauto].
           apply Hdot in Hext. congruence.
Qed.

(** X3. [extension_matches]: an empty filter lets every file through;
    any other filter lets a file through exactly when its extension is
    one of the non-empty tokens written with its leading dot, the dot
    added where the token has none.  Empty tokens match nothing, not
    even a file without extension. *)
Theorem extension_matches_iff (ext : string) (extensions : list string) :
  detail.extension_matches ext extensions = true <->
  extensions = []
  \/ exists entry,
       entry ∈ extensions /\ entry <> "" /\ ext = with_dot entry.
Proof.
  unfold detail.extension_matches.
  destruct extensions as [|e extensions]; [by split; auto |].
  rewrite extension_matches_loop_iff. split; [by right |].
  by intros [? | ?].
Qed.

End Resolver.

(** ** The facade on rejected paths, and existence *)

Section Facade_queries.
Context {World : Type}.
Variable pf : fs.Platform.
Implicit Types (its : list (MountPoint.t World)).
Implicit Types (m it : MountPoint.t World) (w : World).
Implicit Types (normalized path : string).


Lemma exists_file_loop_iff normalized its w :
  Vfs.exists_file_loop normalized its w = true <->
  exists m relative,
    m ∈ its
    /\ detail.relative_to_mount normalized (MountPoint.mount m) = Some relative
    /\ Backend.exists_file (MountPoint.backend m) relative w = true.
Proof.
  induction its as [|it its IH]; simpl.
  - split; [done |]. by intros (? & ? & ?%elem_of_nil & _).
  - destruct (detail.relative_to_mount normalized (MountPoint.mount it))
      as [relative|] eqn:Hrel.
    + destruct (Backend.exists_file (MountPoint.backend it) relative w)
        eqn:Hex.
      * split; [| done]. intros _. exists it, relative.
        split; [by left | done].
      * rewrite IH. split.
        -- intros (m & r & ? & ? & ?). exists m, r. split; [by right | done].
        -- intros (m & r & [-> | ?]%elem_of_cons & Hr & Hm); [| eauto].
           congruence.
    + rewrite IH. split.
      * intros (m & r & ? & ? & ?). exists m, r. split; [by right | done].
      * intros (m & r & [-> | ?]%elem_of_cons & Hr & Hm); [| eauto].
        congruence.
Qed.

(** X5. [exists_file] holds exactly when the path is accepted and the
    backend of some mount that serves it has the file at the relative
    path: any mount, the order of mounting plays no part. *)
Theorem exists_file_iff path (mounts_ : list (MountPoint.t World)) w :
  Vfs.exists_file pf path mounts_ w = true <->
  exists normalized m relative,
    detail.normalize_virtual_path pf path = Some normalized
    /\ m ∈ mounts_
    /\ detail.relative_to_mount normalized (MountPoint.mount m) = Some relative
    /\ Backend.exists_file (MountPoint.backend m) relative w = true.
Proof.
  unfold Vfs.exists_file.
  destruct (detail.normalize_virtual_path pf path) as [normalized|].
  - rewrite exists_file_loop_iff. split.
    + intros (m & r & Hm & ? & ?). rewrite elem_of_rev_list in Hm.
      by exists normalized, m, r.
    + intros (n & m & r & [= <-] & Hm & ? & ?). exists m, r.
      split; [by apply elem_of_rev_list | done].
  - split; [done |]. by intros (? & ? & ? & ? & _).
Qed.

Lemma implied_dir_iff normalized its :
  Vfs.implied_dir normalized its = true <->
  exists m,
    m ∈ its
    /\ (MountPoint.mount m = normalized
        \/ exists rest, MountPoint.mount m = normalized +:+ "/" +:+ rest).
Proof.
  split.
  - induction its as [|it its IH]; simpl; [done |].
    destruct (String.eqb_spec (MountPoint.mount it) normalized) as [Heq | _].
    { intros _. exists it. split; [by left | by left]. }
    destruct (_ && _) eqn:Hcond.
    + intros _. apply below_split in Hcond as [r Hr].
      exists it. split; [by left |]. right. by exists r.
    + intros H. destruct (IH H) as (m & ? & ?). exists m.
      split; [by right | done].
  - intros (m & Hm & H). by eapply implied_dir_at_or_below.
Qed.

Lemma exists_dir_loop_iff normalized its w :
  Vfs.exists_dir_loop normalized its w = true <->
  exists m relative,
    m ∈ its
    /\ detail.relative_to_mount normalized (MountPoint.mount m) = Some relative
    /\ Backend.exists_dir (MountPoint.backend m) relative w = true.
Proof.
  induction its as [|it its IH]; simpl.
  - split; [done |]. by intros (? & ? & ?%elem_of_nil & _).
  - destruct (detail.relative_to_mount normalized (MountPoint.mount it))
      as [relative|] eqn:Hrel.
    + destruct (Backend.exists_dir (MountPoint.backend it) relative w)
        eqn:Hex.
      * split; [| done]. intros _. exists it, relative.
        split; [by left | done].
      * rewrite IH. split.
        -- intros (m & r & ? & ? & ?). exists m, r. split; [by right | done].
        -- intros (m & r & [-> | ?]%elem_of_cons & Hr & Hm); [| eauto].
           congruence.
    + rewrite IH. split.
      * intros (m & r & ? & ? & ?). exists m, r. split; [by right | done].
      * intros (m & r & [-> | ?]%elem_of_cons & Hr & Hm); [| eauto].
        congruence.
Qed.

(** X6. [exists_dir] in full.  It holds exactly when the path is
    accepted and: it is the virtual root and there is a mount; or it
    is another path and some mount has it as its prefix, or lies below
    it, or serves it with a backend that has the directory. *)
Theorem exists_dir_iff path (mounts_ : list (MountPoint.t World)) w :
  Vfs.exists_dir pf path mounts_ w = true <->
  exists normalized,
    detail.normalize_virtual_path pf path = Some normalized
    /\ ((normalized = "" /\ mounts_ <> [])
        \/ (normalized <> ""
            /\ exists m,
                 m ∈ mounts_
                 /\ (MountPoint.mount m = normalized
                     \/ (exists rest,
                           MountPoint.mount m = normalized +:+ "/" +:+ rest)
                     \/ exists relative,
                          detail.relative_to_mount normalized
                            (MountPoint.mount m) = Some relative
                          /\ Backend.exists_dir (MountPoint.backend m)
                               relative w = true))).
Proof.
  unfold Vfs.exists_dir.
  destruct (detail.normalize_virtual_path pf path) as [normalized|].
  2:{ split; [done |]. by intros (? & ? & _). }
  destruct normalized as [|c normalized]; simpl sv.empty; cbv iota.
  { split.
    - intros H. exists "". split; [done |]. left. split; [done |].
      by destruct mounts_.
    - intros (n & [= <-] & [[_ H] | [H _]]); [by destruct mounts_ | done]. }
  set (n := String c normalized).
  destruct (Vfs.implied_dir n mounts_) eqn:Himplied.
  - split; [| done]. intros _. apply implied_dir_iff in Himplied
      as (m & Hm & H).
    exists n. split; [done |]. right. split; [done |]. exists m.
    split; [done |]. destruct H as [? | ?]; auto.
  - rewrite exists_dir_loop_iff. split.
    + intros (m & r & Hm & ? & ?). rewrite elem_of_rev_list in Hm.
      exists n. split; [done |]. right. split; [done |]. exists m.
      split; [done |]. right. right. eauto.
    + intros (n' & [= <-] & [[? _] | [_ (m & Hm & H)]]); [done |].
      destruct H as [H | [H | (r & ? & ?)]].
      * assert (Vfs.implied_dir n mounts_ = true); [| congruence].
        apply implied_dir_iff. eauto.
      * assert (Vfs.implied_dir n mounts_ = true); [| congruence].
        apply implied_dir_iff. eauto.
      * exists m, r. split; [by apply elem_of_rev_list | done].
Qed.

End Facade_queries.

(** ** Writing, mounting and unmounting *)

Section Facade_changes.
Context {World : Type}.
Variable pf : fs.Platform.
Implicit Types (its : list (MountPoint.t World)).
Implicit Types (m it : MountPoint.t World) (w : World).
Implicit Types (normalized path : string).

Lemma write_file_loop_decided normalized data its matched last_result
    w result w' :
  soft last_result ->
  Vfs.write_file_loop normalized data its matched last_result w
  = (result, w') ->
  result = ok \/ result = io_error ->
  exists skipped it later relative w1,
    its = skipped ++ it :: later
    /\ write_passes soft normalized data skipped w w1
    /\ detail.relative_to_mount normalized (MountPoint.mount it)
       = Some relative
    /\ Backend.write_file (MountPoint.backend it) relative data w1
       = (result, w').
Proof.
  revert matched last_result w.
  induction its as [|it its IH]; intros matched last_result w Hlast; simpl.
  - intros [= <- <-] Hres. destruct Hlast as [? ?].
    destruct matched; destruct Hres; done.
  - destruct (detail.relative_to_mount normalized (MountPoint.mount it))
      as [relative|] eqn:Hrel.
    + destruct (Backend.write_file (MountPoint.backend it) relative data w)
        as [r w1] eqn:Hwrite.
      destruct (Result_eqb r ok || Result_eqb r io_error) eqn:Hdec.
      * intros [= <- <-] _. exists [], it, its, relative, w.
        repeat split; [constructor | done..].
      * intros Hloop Hres.
        assert (soft r) as Hsoft.
        { apply orb_false_iff in Hdec as [H1 H2].
          split; intros ->; done. }
        apply IH in Hloop as (skipped & it' & later & rel' & w2 & -> & Hp
                              & ? & ?); [| | done].
        -- exists (it :: skipped), it', later, rel', w2.
           repeat split; [| done..]. by eapply passes_answer.
        -- by destruct (negb (Result_eqb r not_supported)).
    + intros Hloop Hres.
      apply IH in Hloop as (skipped & it' & later & rel' & w2 & -> & Hp
                            & ? & ?); [| done..].
      exists (it :: skipped), it', later, rel', w2.
      repeat split; [| done..]. by apply passes_no_match.
Qed.

(** X7. Whenever [write_file] on an accepted path returns [ok] or
    [io_error], that is the answer of one serving backend, every
    serving mount newer than it answered something else, and no mount
    older than it was asked: the stores are as that one call left
    them. *)
Theorem write_file_answer_has_an_author path normalized data
    (mounts_ : list (MountPoint.t World)) w result w' :
  detail.normalize_virtual_path pf path = Some normalized ->
  Vfs.write_file pf path data mounts_ w = (result, w') ->
  result = ok \/ result = io_error ->
  exists older m newer relative w1,
    mounts_ = older ++ m :: newer
    /\ write_passes soft normalized data (rev newer) w w1
    /\ detail.relative_to_mount normalized (MountPoint.mount m)
       = Some relative
    /\ Backend.write_file (MountPoint.backend m) relative data w1
       = (result, w').
Proof.
  intros Hnorm. unfold Vfs.write_file. rewrite Hnorm. intros Hloop Hres.
  apply write_file_loop_decided in Hloop
    as (skipped & it & later & rel & w1 & Heq & Hp & ? & ?);
    [| split; done | done].
  apply rev_split_middle in Heq.
  exists (rev later), it, (rev skipped), rel, w1.
  rewrite rev_involutive. done.
Qed.

(** X8. Reading after a successful [mount]: when the new mount serves
    the path and its backend has the file, that content is returned;
    otherwise the answer is the one the table gave before. *)
Theorem read_file_after_mount prefix backend normalized_prefix path normalized
    (mounts_ : list (MountPoint.t World)) w :
  detail.normalize_virtual_path pf prefix = Some normalized_prefix ->
  detail.normalize_virtual_path pf path = Some normalized ->
  Vfs.read_file pf path (snd (Vfs.mount pf prefix (Some backend) mounts_)) w
  = match detail.relative_to_mount normalized normalized_prefix with
    | Some relative =>
        match Backend.read_file backend relative w with
        | Some blob => Some blob
        | None => Vfs.read_file pf path mounts_ w
        end
    | None => Vfs.read_file pf path mounts_ w
    end.
Proof.
  intros Hprefix Hnorm. unfold Vfs.mount, Vfs.read_file.
  rewrite Hprefix, Hnorm. simpl. rewrite rev_app_distr. simpl. done.
Qed.

(** X9. A successful [unmount] removes every mount whose prefix is
    the normalised path and nothing else, the others keep their
    order; it reports [true] exactly when there was such a mount;
    afterwards none is left, so unmounting again reports [false]. *)
Theorem unmount_removes_the_prefix path normalized
    (mounts_ : list (MountPoint.t World)) :
  detail.normalize_virtual_path pf path = Some normalized ->
  let kept := snd (Vfs.unmount pf path mounts_) in
  kept = List.filter
           (fun m => negb (MountPoint.mount m =? normalized)%string) mounts_
  /\ (fst (Vfs.unmount pf path mounts_) = true <->
      exists m, m ∈ mounts_ /\ MountPoint.mount m = normalized)
  /\ (forall m, m ∈ kept <-> m ∈ mounts_ /\ MountPoint.mount m <> normalized)
  /\ kept `sublist_of` mounts_
  /\ Vfs.unmount pf path kept = (false, kept).
Proof.
  intros Hnorm. unfold Vfs.unmount. rewrite Hnorm.
  pose proof (unmount_loop_removed normalized mounts_ false) as Hr.
  pose proof (unmount_loop_kept normalized mounts_ false) as Hk.
  destruct (Vfs.unmount_loop normalized mounts_ false) as [kept removed].
  simpl in *. subst kept removed.
  set (keep := fun m : MountPoint.t World =>
                 negb (MountPoint.mount m =? normalized)%string).
  assert (forall m, m ∈ List.filter keep mounts_ <->
                    m ∈ mounts_ /\ MountPoint.mount m <> normalized) as Hin.
  { intros m. rewrite !list_elem_of_In, filter_In. unfold keep.
    rewrite negb_true_iff, String.eqb_neq. done. }
  split; [done |]. split; [| split; [done |]; split].
  - rewrite existsb_exists. split.
    + intros (m & Hm & Heq). exists m.
      split; [by apply list_elem_of_In | by apply String.eqb_eq].
    + intros (m & Hm & Heq). exists m.
      split; [by apply list_elem_of_In | by apply String.eqb_eq].
  - apply filter_sublist.
  - pose proof (unmount_loop_removed normalized (List.filter keep mounts_)
                  false) as Hr.
    pose proof (unmount_loop_kept normalized (List.filter keep mounts_)
                  false) as Hk.
    destruct (Vfs.unmount_loop normalized (List.filter keep mounts_) false)
      as [kept removed].
    simpl in *. subst kept removed. f_equal.
    + apply not_true_is_false. rewrite existsb_exists.
      intros (m & Hm & Heq). apply list_elem_of_In, Hin in Hm as [_ Hne].
      by apply String.eqb_eq in Heq.
    + apply filter_all. apply Forall_forall. intros m Hm.
      apply Hin in Hm as [_ Hne]. unfold keep.
      by apply negb_true_iff, String.eqb_neq.
Qed.

(** X10. Mounting at a prefix no mount has yet, then unmounting the
    same path, gives the table back as it was. *)
Theorem unmount_undoes_mount path normalized backend
    (mounts_ : list (MountPoint.t World)) :
  detail.normalize_virtual_path pf path = Some normalized ->
  (forall m, m ∈ mounts_ -> MountPoint.mount m <> normalized) ->
  Vfs.unmount pf path (snd (Vfs.mount pf path (Some backend) mounts_))
  = (true, mounts_).
Proof.
  intros Hnorm Hfresh. unfold Vfs.mount, Vfs.unmount. rewrite Hnorm. simpl.
  pose proof (unmount_loop_removed normalized
    (mounts_ ++ [{| MountPoint.mount := normalized;
                    MountPoint.backend := backend |}]) false) as Hr.
  pose proof (unmount_loop_kept normalized
    (mounts_ ++ [{| MountPoint.mount := normalized;
                    MountPoint.backend := backend |}]) false) as Hk.
  destruct (Vfs.unmount_loop normalized _ false) as [kept removed].
  simpl in *. subst kept removed. f_equal.
  - rewrite existsb_app. simpl. rewrite String.eqb_refl.
    by rewrite orb_true_r.
  - rewrite List.filter_app. simpl. rewrite String.eqb_refl. simpl.
    rewrite app_nil_r. apply filter_all. apply Forall_forall. intros m Hm.
    by apply negb_true_iff, String.eqb_neq, Hfresh.
Qed.

End Facade_changes.

(** ** Listings, in full *)

Section Listings.
Context {World : Type}.
Variable pf : fs.Platform.
Implicit Types (its : list (MountPoint.t World)).
Implicit Types (m it : MountPoint.t World) (w : World).
Implicit Types (normalized path : string).

(** X11. [list_dirs] on an accepted path, no serving backend failing:
    the callback receives exactly the child names of the mounts below
    the directory and the names the serving backends report.  The
    child names come first, in table order; without
    [allow_duplicates] no name comes twice. *)
Theorem list_dirs_is_union path normalized
    (mounts_ : list (MountPoint.t World)) w :
  detail.normalize_virtual_path pf path = Some normalized ->
  Forall (sound (dirs_request w) normalized) mounts_ ->
  (forall allow x,
      x ∈ snd (Vfs.list_dirs pf path allow mounts_ w) <->
      (exists m, m ∈ mounts_
                 /\ detail.child_mount_name normalized (MountPoint.mount m)
                    = Some x)
      \/ exists m r names,
           m ∈ mounts_ /\ answers (dirs_request w) normalized m r names
           /\ x ∈ names)
  /\ (exists names,
        snd (Vfs.list_dirs pf path true mounts_ w)
        = children normalized mounts_ ++ names)
  /\ snd (Vfs.list_dirs pf path false mounts_ w)
     = first_occurrences ∅ (snd (Vfs.list_dirs pf path true mounts_ w))
  /\ NoDup (snd (Vfs.list_dirs pf path false mounts_ w)).
Proof.
  intros Hnorm Hsound. rewrite !(list_dirs_outcome _ _ _ _ _ _ Hnorm).
  cbn [snd]. cbv zeta.
  apply Forall_rev_iff, sound_never_fails in Hsound.
  split; [| split; [by eexists | split; [done | apply NoDup_first_occurrences]]].
  intros allow x.
  assert (x ∈ children normalized mounts_
            ++ reported (dirs_request w) normalized (rev mounts_) <->
          (exists m, m ∈ mounts_
                     /\ detail.child_mount_name normalized (MountPoint.mount m)
                        = Some x)
          \/ exists m r names,
               m ∈ mounts_ /\ answers (dirs_request w) normalized m r names
               /\ x ∈ names) as Hall.
  { rewrite elem_of_app, (elem_of_reported _ _ _ _ Hsound).
    unfold children. rewrite list_elem_of_omap.
    by setoid_rewrite elem_of_rev_list. }
  rewrite (list_dirs_outcome _ _ _ _ _ _ Hnorm). cbn [snd]. cbv zeta.
  destruct allow; [done |].
  rewrite elem_of_first_occurrences, Hall. set_solver.
Qed.



End Listings.

(** ** Blobs and text *)

Section Blobs.

Lemma memcpy_resize (src : list byte) (n : nat) :
  Blob.memcpy (Blob.resize (List.length src + n)) src
  = string_of_list_byte src +:+ Blob.resize n.
Proof.
  unfold string_of_list_byte.
  induction src as [|b src IH]; simpl; [done | by rewrite IH].
Qed.

Lemma set_back_zero (s : string) :
  Blob.set_back (s +:+ String Ascii.zero "") Ascii.zero
  = s +:+ String Ascii.zero "".
Proof.
  induction s as [|a s IH]; simpl; [done |]. rewrite IH.
  by destruct s.
Qed.

Lemma to_string_text (b : Blob) (append_null : bool) :
  Blob.to_string b append_null
  = Blob.as_string_view b
    +:+ (if append_null then String Ascii.zero "" else "").
Proof.
  unfold Blob.to_string, Blob.as_string_view, Blob.empty, Blob.size.
  destruct b as [src]. simpl.
  destruct src as [|x src]; [by destruct append_null |].
  cbn [negb]. rewrite memcpy_resize.
  destruct append_null; [apply set_back_zero | done].
Qed.

(** X13. [Blob::to_string] returns the bytes as characters, followed
    by one NUL when [append_null] is set and by nothing otherwise; so
    its length is the size of the blob, plus one with [append_null].
    The bytes of the returned text, the NUL apart, are the bytes of
    the blob; a blob is empty exactly when its size is 0. *)
Theorem to_string_is_the_bytes (b : Blob) (append_null : bool) :
  Blob.to_string b append_null
  = Blob.as_string_view b
    +:+ (if append_null then String Ascii.zero "" else "")
  /\ String.length (Blob.to_string b append_null)
     = Blob.size b + (if append_null then 1 else 0)
  /\ list_byte_of_string (Blob.to_string b false) = bytes b
  /\ (Blob.empty b = true <-> Blob.size b = 0).
Proof.
  pose proof (to_string_text b append_null) as Hto.
  assert (forall src, String.length (string_of_list_byte src)
                      = List.length src) as Hlen.
  { intros src. unfold string_of_list_byte.
    induction src as [|x src IH]; simpl; [done | by rewrite IH]. }
  split; [done |]. split; [| split].
  - rewrite Hto, length_app. unfold Blob.as_string_view, Blob.size.
    rewrite Hlen. by destruct append_null.
  - rewrite (to_string_text b false), app_empty_r.
    apply list_byte_of_string_of_list_byte.
  - unfold Blob.empty, Blob.size. by destruct (bytes b).
Qed.

(** X14. [read_text] returns text exactly when [read_file] returns a
    blob, and the text is that blob's bytes as characters; with
    [append_null] it is the text without it, one NUL added. *)
Theorem read_text_is_read_file {World : Type} (pf : fs.Platform)
    (path : string) (mounts_ : list (MountPoint.t World)) (w : World) :
  Vfs.read_text pf path false mounts_ w
  = Blob.as_string_view <$> Vfs.read_file pf path mounts_ w
  /\ Vfs.read_text pf path true mounts_ w
     = (fun t => t +:+ String Ascii.zero "")
         <$> Vfs.read_text pf path false mounts_ w.
Proof.
  unfold Vfs.read_text.
  destruct (Vfs.read_file pf path mounts_ w) as [blob|]; [| done].
  by rewrite !to_string_text, app_empty_r.
Qed.

End Blobs.

(** ** Normalised paths *)

Section Normalised_paths.
Variable pf : fs.Platform.

Lemma segments_app (a b : string) (sep : ascii) :
  fs.is_slash pf sep = true ->
  fs.segments pf (a +:+ String sep b) = fs.segments pf a ++ fs.segments pf b.
Proof.
  intros Hsep. induction a as [|c a IH]; simpl.
  - by rewrite Hsep.
  - destruct (fs.is_slash pf c); rewrite IH; [done |].
    pose proof (segments_not_nil pf a).
    by destruct (fs.segments pf a).
Qed.

Lemma normal_path_cons (name : string) (names : list string) :
  names <> [] ->
  normal_path (name :: names) = name +:+ String "/" (normal_path names).
Proof.
  intros Hne. unfold normal_path. by rewrite flag_last_cons.
Qed.

Lemma normal_path_app (l k : list string) :
  l <> [] -> k <> [] ->
  normal_path (l ++ k) = normal_path l +:+ String "/" (normal_path k).
Proof.
  intros Hl Hk. induction l as [|x l IH]; [done |].
  destruct l as [|y l].
  - simpl app. rewrite normal_path_cons by done.
    unfold normal_path at 2. simpl. by rewrite app_empty_r.
  - change ((x :: y :: l) ++ k) with (x :: (y :: l) ++ k).
    rewrite !normal_path_cons by done. rewrite IH by done.
    by rewrite app_assoc_s.
Qed.

Lemma normal_path_empty (names : list string) :
  Forall (plain_name pf) names -> normal_path names = "" -> names = [].
Proof.
  intros Hnames Hempty. destruct names as [|x names]; [done |].
  apply Forall_cons in Hnames as [(Hx & _) _]. exfalso.
  destruct names as [|y names].
  - unfold normal_path in Hempty. simpl in Hempty. by destruct x.
  - rewrite normal_path_cons in Hempty by done. by destruct x.
Qed.

Lemma segments_normal_path (names : list string) :
  names <> [] ->
  Forall (plain_name pf) names ->
  fs.segments pf (normal_path names) = names.
Proof.
  intros Hne Hnames. induction Hnames as [|x l (_ & Hx & _) Hl IH]; [done |].
  destruct l as [|y l].
  - unfold normal_path. simpl. rewrite app_empty_r.
    by apply segments_slash_free.
  - rewrite normal_path_cons by done.
    rewrite segments_app_sep by (done || apply is_slash_slash).
    by rewrite IH.
Qed.

Lemma normalised_empty : normalised pf "".
Proof. by exists []. Qed.

Lemma relative_is_normalised (full mount relative : string) :
  normalised pf full ->
  normalised pf mount ->
  detail.relative_to_mount full mount = Some relative ->
  normalised pf relative.
Proof.
  intros (fnames & Hf & ->) (mnames & Hm & ->) Hrel.
  apply relative_to_mount_cases in Hrel
    as [[_ ->] | [(_ & _ & ->) | [Hmount Hfull]]].
  - by exists fnames.
  - apply normalised_empty.
  - assert (mnames <> []) as Hmne by (by intros ->).
    assert (fnames <> []) as Hfne.
    { intros ->. by destruct (normal_path mnames). }
    pose proof (f_equal (fs.segments pf) Hfull) as Hseg.
    change (normal_path mnames +:+ "/" +:+ relative)
      with (normal_path mnames +:+ String "/" relative) in Hseg.
    rewrite segments_app in Hseg by apply is_slash_slash.
    rewrite !segments_normal_path in Hseg by done.
    exists (fs.segments pf relative). split.
    + rewrite Hseg in Hf. by apply Forall_app in Hf as [_ ?].
    + rewrite Hseg in Hfull.
      rewrite normal_path_app in Hfull
        by (done || apply segments_not_nil).
      apply app_inv_head_s in Hfull. by injection Hfull.
Qed.

(** X15. What the normaliser returns is a normalised path, the empty
    one or plain names joined by single slashes: split at the
    separators it has no empty piece, no dot and no dot-dot, and so no
    slash in front, at the end or doubled. *)
Theorem normalize_returns_normalised (input output : string) :
  detail.normalize_virtual_path pf input = Some output ->
  normalised pf output
  /\ (output = "" \/ Forall (plain_name pf) (fs.segments pf output)).
Proof.
  intros Hacc.
  destruct (normalize_gives_plain_names pf _ _ Hacc) as (names & Hnames & ->).
  fold (normal_path names). split; [by exists names |].
  destruct names as [|x names]; [by left |]. right.
  by rewrite segments_normal_path.
Qed.

(** X16. [relative_to_mount] keeps paths normalised: the relative path
    of a normalised path under a normalised mount prefix is
    normalised. *)
Theorem relative_to_mount_keeps_normalised (full mount relative : string) :
  normalised pf full ->
  normalised pf mount ->
  detail.relative_to_mount full mount = Some relative ->
  normalised pf relative.
Proof. apply relative_is_normalised. Qed.

(** X17. The mount table keeps its prefixes normalised through
    [mount], [mount_disk] and [unmount]; and in such a table every
    relative path worked out for an accepted path is normalised: a
    backend is never handed a path with a dot-dot, an empty name or a
    leading slash. *)
Theorem table_keeps_prefixes_normalised {World : Type} (path : string)
    (mounts_ : list (MountPoint.t World)) :
  Forall (fun m => normalised pf (MountPoint.mount m)) mounts_ ->
  (forall backend,
      Forall (fun m => normalised pf (MountPoint.mount m))
        (snd (Vfs.mount pf path backend mounts_)))
  /\ (forall disk root,
        Forall (fun m => normalised pf (MountPoint.mount m))
          (snd (Vfs.mount_disk pf disk path root mounts_)))
  /\ Forall (fun m => normalised pf (MountPoint.mount m))
       (snd (Vfs.unmount pf path mounts_))
  /\ (forall normalized m relative,
        detail.normalize_virtual_path pf path = Some normalized ->
        m ∈ mounts_ ->
        detail.relative_to_mount normalized (MountPoint.mount m)
        = Some relative ->
        normalised pf relative).
Proof.
  intros Htable.
  assert (forall backend,
      Forall (fun m => normalised pf (MountPoint.mount m))
        (snd (Vfs.mount pf path backend mounts_))) as Hmount.
  { intros [b|]; unfold Vfs.mount; [| done].
    destruct (detail.normalize_virtual_path pf path) as [n|] eqn:Hn; [| done].
    simpl. apply Forall_app. split; [done |]. constructor; [| done].
    destruct (normalize_gives_plain_names pf _ _ Hn) as (names & ? & ->).
    by exists names. }
  split; [done |]. split; [intros disk root; apply Hmount |]. split.
  - unfold Vfs.unmount.
    destruct (detail.normalize_virtual_path pf path) as [n|]; [| done].
    pose proof (unmount_loop_kept n mounts_ false) as Hk.
    destruct (Vfs.unmount_loop n mounts_ false) as [kept removed].
    simpl in *. subst kept.
    eapply Forall_sublist; [apply filter_sublist | done].
  - intros normalized m relative Hn Hm Hrel.
    eapply relative_is_normalised; [| | exact Hrel].
    + destruct (normalize_gives_plain_names pf _ _ Hn) as (names & ? & ->).
      by exists names.
    + rewrite Forall_forall in Htable. by apply Htable.
Qed.

End Normalised_paths.

(** ** POSIX paths: acceptance, and the disk subtree *)

Section Posix.

Lemma posix_generic (s : string) : fs.generic_string fs.posix s = s.
Proof.
  unfold fs.generic_string. induction s as [|a s IH]; [done |].
  cbn [sv.map]. rewrite IH. f_equal. simpl.
  destruct (a =? "/")%char eqn:Ha; [| done].
  by apply Ascii.eqb_eq in Ha as ->.
Qed.


Lemma posix_no_root_name (p : string) : fs.has_root_name fs.posix p = false.
Proof. by apply no_root_name. Qed.

Lemma posix_items_of_text (rooted : bool) (its : list (string * bool)) :
  separated its ->
  Forall (filename fs.posix) its ->
  let text := (if rooted then "/" else "") +:+ fs.render "/" its in
  fs.items fs.posix text = its
  /\ fs.has_root_directory fs.posix text = rooted.
Proof.
  intros Hsepd Hits text.
  assert (fs.has_root_directory fs.posix (fs.render "/" its) = false) as Hrel.
  { destruct (decide (its = [])) as [-> | Hne]; [done |].
    destruct (render_first fs.posix "/" its Hne Hits) as (a & t & Ht & Ha).
    unfold fs.has_root_directory. simpl fs.root_name_end.
    change (sv.drop 0 ?x) with x. by rewrite Ht. }
  destruct rooted; subst text.
  - split; [| done]. unfold fs.items. simpl fs.root_name_end.
    change (sv.drop 0 ?x) with x.
    change ("/" +:+ fs.render "/" its) with (String "/" (fs.render "/" its)).
    change (fs.segments fs.posix (String "/" (fs.render "/" its)))
      with ("" :: fs.segments fs.posix (fs.render "/" its)).
    rewrite flag_last_cons by apply segments_not_nil.
    change (List.filter ?f (("", true) :: ?l)) with (List.filter f l).
    by apply items_of_render.
  - split; [| done]. by apply items_of_text.
Qed.

Lemma existsb_names (its : list (string * bool)) :
  existsb (fun part => (part =? "..")%string) (map fst its)
  = existsb fs.is_dotdot its.
Proof. induction its as [|it its IH]; simpl; [done |]. by rewrite IH. Qed.

Lemma posix_accepted (input : string) :
  existsb fs.is_dotdot (normal_items fs.posix input) = false ->
  is_Some (detail.normalize_virtual_path fs.posix input).
Proof.
  intros Hok. unfold detail.normalize_virtual_path.
  rewrite posix_no_root_name.
  destruct (decide (input = "")) as [-> | Hne]; [by eexists |].
  rewrite lexically_normal_text by done. cbv zeta.
  change (fs.preferred_separator fs.posix) with "/"%char.
  destruct (posix_items_of_text (fs.has_root_directory fs.posix input)
              (normal_items fs.posix input)
              (normal_items_separated fs.posix input)
              (normal_items_filenames fs.posix input)) as [Hitems Hroot].
  cbv zeta in Hitems, Hroot.
  change (String "/" "") with "/".
  set (text := (if fs.has_root_directory fs.posix input then "/" else "")
               +:+ fs.render "/" (normal_items fs.posix input)) in *.
  assert (existsb (fun part => (part =? "..")%string)
            (fs.elements fs.posix (if sv.empty text then "." else text))
          = false) as ->.
  { destruct (sv.empty text); [done |].
    unfold fs.elements. rewrite posix_no_root_name, Hitems, Hroot.
    rewrite !existsb_app, existsb_names, Hok.
    destruct (fs.has_root_directory fs.posix input);
      by destruct (last (normal_items fs.posix input)) as [[? []]|]. }
  by destruct (_ || _); eexists.
Qed.

(** X18. On POSIX the normaliser rejects exactly the inputs without a
    root directory in which a dot-dot steps above the virtual root;
    every other input, every rooted one among them, is accepted. *)
Theorem posix_rejects_iff (input : string) :
  detail.normalize_virtual_path fs.posix input = None <->
  fs.has_root_directory fs.posix input = false
  /\ escapes_root 0 (map fst (fs.items fs.posix input)) = true.
Proof.
  split.
  - intros Hrej.
    destruct (fs.has_root_directory fs.posix input) eqn:Hroot.
    + destruct (posix_accepted input (normal_items_rooted _ _ Hroot))
        as [n Hn]. congruence.
    + split; [done |].
      destruct (normal_items_escape fs.posix input Hroot) as [Heq _].
      rewrite <- Heq.
      destruct (existsb fs.is_dotdot (normal_items fs.posix input)) eqn:Hex;
        [done |].
      destruct (posix_accepted input Hex) as [n Hn]. congruence.
  - intros [Hroot Hesc].
    apply escaping_rejected; [apply posix_no_root_name | done |].
    destruct (normal_items_escape fs.posix input Hroot) as [Heq _].
    by rewrite Heq.
Qed.

Lemma posix_rooted_items (rooted : bool) (names : list string) :
  Forall (plain_name fs.posix) names ->
  fs.items fs.posix (rooted_path rooted names) = fs.flag_last names
  /\ fs.has_root_directory fs.posix (rooted_path rooted names) = rooted.
Proof.
  intros Hnames.
  destruct (flag_last_plain fs.posix names Hnames) as (Hfiles & _ & _).
  apply (posix_items_of_text rooted (fs.flag_last names));
    [apply separated_flag_last | done].
Qed.

Lemma posix_lexically_normal (rooted : bool) (names : list string) :
  Forall (plain_name fs.posix) names ->
  rooted_path rooted names <> "" ->
  fs.lexically_normal fs.posix (rooted_path rooted names)
  = rooted_path rooted names.
Proof.
  intros Hnames Hne.
  destruct (posix_rooted_items rooted names Hnames) as [Hitems Hroot].
  destruct (flag_last_plain fs.posix names Hnames) as (_ & Hdots & Hdotdots).
  rewrite lexically_normal_text by done. cbv zeta.
  assert (normal_items fs.posix (rooted_path rooted names)
          = fs.flag_last names) as ->.
  { unfold normal_items. rewrite Hitems, Hroot.
    assert (List.filter (fun it => negb (fs.is_dot it)) (fs.flag_last names)
            = fs.flag_last names) as ->.
    { apply filter_all. eapply Forall_impl; [exact Hdots |].
      intros it Hit. by rewrite Hit. }
    rewrite collapse_unchanged by done. simpl rev. simpl app.
    assert (List.filter (fun it => negb (fs.is_dotdot it)) (fs.flag_last names)
            = fs.flag_last names) as Hkeep.
    { apply filter_all. eapply Forall_impl; [exact Hdotdots |].
      intros it Hit. by rewrite Hit. }
    destruct rooted; [rewrite Hkeep |]; by apply trim_dotdot_unchanged. }
  rewrite Hroot.
  change ((if rooted then String (fs.preferred_separator fs.posix) "" else "")
          +:+ fs.render (fs.preferred_separator fs.posix) (fs.flag_last names))
    with (rooted_path rooted names).
  by destruct (rooted_path rooted names).
Qed.

Lemma normalised_relative (names : list string) :
  Forall (plain_name fs.posix) names ->
  fs.has_root_directory fs.posix (normal_path names) = false.
Proof.
  intros Hnames.
  by destruct (posix_rooted_items false names Hnames) as [_ Hroot].
Qed.

Lemma posix_append (rooted : bool) (bnames rnames : list string) :
  Forall (plain_name fs.posix) bnames ->
  Forall (plain_name fs.posix) rnames ->
  rooted_path rooted bnames <> "" ->
  rnames <> [] ->
  fs.append fs.posix (rooted_path rooted bnames) (normal_path rnames)
  = rooted_path rooted (bnames ++ rnames).
Proof.
  intros Hb Hr Hbase Hrel.
  destruct (posix_rooted_items rooted bnames Hb) as [Hitems Hroot].
  unfold fs.append, fs.is_absolute, fs.has_filename.
  rewrite posix_no_root_name, (normalised_relative rnames Hr), Hitems, Hroot.
  simpl fs.root_name_end. change (sv.drop 0 ?x) with x.
  rewrite last_flag_last. cbn [orb andb].
  change (fs.preferred_separator fs.posix) with "/"%char.
  destruct bnames as [|b bnames].
  - by destruct rooted.
  - destruct (last (b :: bnames)) as [name|] eqn:Hlast.
    2:{ by apply last_None in Hlast. }
    simpl fmap. cbv iota. rewrite orb_true_r.
    unfold rooted_path. rewrite normal_path_app by done.
    by rewrite app_assoc_s.
Qed.

Lemma subtree_map_normal (rooted : bool) (bnames rnames : list string) :
  Forall (plain_name fs.posix) bnames ->
  Forall (plain_name fs.posix) rnames ->
  SubtreeBackend.map fs.posix (rooted_path rooted bnames)
    (normal_path rnames)
  = rooted_path rooted (bnames ++ rnames).
Proof.
  intros Hb Hr. unfold SubtreeBackend.map.
  destruct (sv.empty (rooted_path rooted bnames)) eqn:Hbase.
  - apply sv_empty_iff in Hbase.
    assert (rooted = false /\ bnames = []) as [-> ->].
    { destruct rooted; [done |]. split; [done |].
      by apply (normal_path_empty fs.posix). }
    rewrite posix_generic. simpl app.
    destruct (decide (normal_path rnames = "")) as [Hempty | Hne].
    + by rewrite Hempty.
    + by apply (posix_lexically_normal false rnames).
  - assert (rooted_path rooted bnames <> "") as Hne.
    { intros H. by rewrite H in Hbase. }
    destruct (sv.empty (normal_path rnames)) eqn:Hrel.
    + apply sv_empty_iff, (normal_path_empty fs.posix) in Hrel as ->; [| done].
      by rewrite posix_generic, app_nil_r.
    + assert (rnames <> []) as Hrne by (by intros ->).
      cbv zeta. rewrite posix_append, posix_generic by done.
      apply posix_lexically_normal.
      * by apply Forall_app.
      * unfold rooted_path in *. destruct rooted; [done |].
        intros Hempty. apply (normal_path_empty fs.posix) in Hempty.
        -- by destruct bnames.
        -- by apply Forall_app.
Qed.

(** X19. [SubtreeBackend::map] on POSIX, for a base in normal form (an
    optional root directory and plain names) and a normalised relative
    path: with an empty base the path goes through unchanged; the
    empty path maps to the base; any other path maps to the base
    followed by its names, so the mapped path stays below the base. *)
Theorem subtree_map_posix (rooted : bool) (bnames rnames : list string) :
  Forall (plain_name fs.posix) bnames ->
  Forall (plain_name fs.posix) rnames ->
  SubtreeBackend.map fs.posix (rooted_path rooted bnames)
    (normal_path rnames)
  = rooted_path rooted (bnames ++ rnames).
Proof. apply subtree_map_normal. Qed.


End Posix.


(** ** The further properties at work *)

Lemma plain_names_decided (pf : fs.Platform) (names : list string) :
  forallb (plain_nameb pf) names = true -> Forall (plain_name pf) names.
Proof.
  intros H. apply Forall_forall. intros name Hin.
  apply list_elem_of_In in Hin.
  rewrite forallb_forall in H. specialize (H name Hin).
  unfold plain_nameb in H.
  apply andb_true_iff in H as [H Hdotdot].
  apply andb_true_iff in H as [H Hdot].
  apply andb_true_iff in H as [Hne Hfree].
  apply negb_true_iff in Hne, Hdot, Hdotdot.
  split; [by intros -> | done].
Defined.

Lemma normalised_decided (pf : fs.Platform) (names : list string) :
  forallb (plain_nameb pf) names = true -> normalised pf (normal_path names).
Proof.
  intros H. exists names. split; [by apply plain_names_decided | done].
Defined.

Lemma table_is_sound_dirs w :
  Forall (sound (dirs_request w) "content") table.
Proof.
  repeat constructor; intros r names (relative & Hrel & Hreq);
    vm_compute in Hrel; try discriminate;
    injection Hrel as <-; vm_compute in Hreq; by injection Hreq as <- _.
Defined.

Lemma table_is_normalised :
  Forall (fun m => normalised fs.posix (MountPoint.mount m)) table.
Proof.
  repeat constructor.
  - apply (normalised_decided fs.posix ["content"]). reflexivity.
  - apply (normalised_decided fs.posix ["content"]). reflexivity.
  - apply (normalised_decided fs.posix ["shaders"]). reflexivity.
Defined.


Lemma write_file_answer_has_an_author_witness :
  exists older m newer relative w1,
    table = older ++ m :: newer
    /\ write_passes soft "content/out.txt" (text "out") (rev newer) [] w1
    /\ detail.relative_to_mount "content/out.txt" (MountPoint.mount m)
       = Some relative
    /\ Backend.write_file (MountPoint.backend m) relative (text "out") w1
       = (ok, [("out.txt", text "out")]).
Proof.
  apply (write_file_answer_has_an_author fs.posix "content/out.txt"
           "content/out.txt" (text "out") table [] ok
           [("out.txt", text "out")]).
  - vm_compute. reflexivity.
  - vm_compute. reflexivity.
  - left. reflexivity.
Defined.

Lemma read_file_after_mount_witness :
  Vfs.read_file fs.posix "content/hello.txt"
    (snd (Vfs.mount fs.posix "content/" (Some (CannedBackend overlay))
            [mount_at "content" base])) []
  = Some {| bytes := text "B" |}
  /\ Vfs.read_file fs.posix "shaders/hello.txt"
       (snd (Vfs.mount fs.posix "content/" (Some (CannedBackend overlay))
               [mount_at "content" base])) []
     = Vfs.read_file fs.posix "shaders/hello.txt"
         [mount_at "content" base] [].
Proof.
  split.
  - rewrite (read_file_after_mount fs.posix "content/" (CannedBackend overlay)
               "content" "content/hello.txt" "content/hello.txt").
    + vm_compute. reflexivity.
    + vm_compute. reflexivity.
    + vm_compute. reflexivity.
  - rewrite (read_file_after_mount fs.posix "content/" (CannedBackend overlay)
               "content" "shaders/hello.txt" "shaders/hello.txt").
    + vm_compute. reflexivity.
    + vm_compute. reflexivity.
    + vm_compute. reflexivity.
Defined.

Lemma unmount_removes_the_prefix_witness :
  snd (Vfs.unmount fs.posix "content/" table)
  = [mount_at "shaders" empty_store]
  /\ Vfs.unmount fs.posix "content/" (snd (Vfs.unmount fs.posix "content/" table))
     = (false, snd (Vfs.unmount fs.posix "content/" table)).
Proof.
  destruct (unmount_removes_the_prefix fs.posix "content/" "content" table)
    as (Hkept & _ & _ & _ & Hagain).
  - vm_compute. reflexivity.
  - split; [| exact Hagain]. rewrite Hkept. vm_compute. reflexivity.
Defined.

Lemma unmount_undoes_mount_witness :
  Vfs.unmount fs.posix "mods"
    (snd (Vfs.mount fs.posix "mods" (Some (CannedBackend overlay)) table))
  = (true, table).
Proof.
  apply (unmount_undoes_mount fs.posix "mods" "mods").
  - vm_compute. reflexivity.
  - intros m Hm Heq.
    apply elem_of_cons in Hm as [-> | Hm]; [discriminate Heq |].
    apply elem_of_cons in Hm as [-> | Hm]; [discriminate Heq |].
    apply elem_of_cons in Hm as [-> | Hm]; [discriminate Heq |].
    by apply elem_of_nil in Hm.
Defined.

Lemma list_dirs_is_union_witness :
  snd (Vfs.list_dirs fs.posix "content" false table [])
  = first_occurrences ∅ (snd (Vfs.list_dirs fs.posix "content" true table []))
  /\ NoDup (snd (Vfs.list_dirs fs.posix "content" false table [])).
Proof.
  destruct (list_dirs_is_union fs.posix "content" "content" table [])
    as (_ & _ & Hfirst & Hnodup).
  - vm_compute. reflexivity.
  - apply table_is_sound_dirs.
  - split; [exact Hfirst | exact Hnodup].
Defined.


Lemma normalize_returns_normalised_witness :
  normalised fs.posix "content/hello.txt"
  /\ ("content/hello.txt" = ""
      \/ Forall (plain_name fs.posix)
           (fs.segments fs.posix "content/hello.txt")).
Proof.
  apply (normalize_returns_normalised fs.posix "content//./hello.txt").
  vm_compute. reflexivity.
Defined.

Lemma relative_to_mount_keeps_normalised_witness :
  normalised fs.posix "maps/a.txt".
Proof.
  apply (relative_to_mount_keeps_normalised fs.posix
           "content/maps/a.txt" "content" "maps/a.txt").
  - apply (normalised_decided fs.posix ["content"; "maps"; "a.txt"]).
    vm_compute. reflexivity.
  - apply (normalised_decided fs.posix ["content"]). vm_compute. reflexivity.
  - vm_compute. reflexivity.
Defined.

Lemma table_keeps_prefixes_normalised_witness :
  Forall (fun m => normalised fs.posix (MountPoint.mount m))
    (snd (Vfs.mount fs.posix "mods/" (Some (CannedBackend overlay)) table))
  /\ Forall (fun m => normalised fs.posix (MountPoint.mount m))
       (snd (Vfs.unmount fs.posix "content" table)).
Proof.
  destruct (table_keeps_prefixes_normalised fs.posix "mods/" table
              table_is_normalised) as (Hmount & _ & _ & _).
  destruct (table_keeps_prefixes_normalised fs.posix "content" table
              table_is_normalised) as (_ & _ & Hunmount & _).
  split; [apply Hmount | exact Hunmount].
Defined.

Lemma subtree_map_posix_witness :
  SubtreeBackend.map fs.posix "/srv/data" "maps/a.txt"
  = "/srv/data/maps/a.txt"
  /\ SubtreeBackend.map fs.posix "" "maps/a.txt" = "maps/a.txt"
  /\ SubtreeBackend.map fs.posix "/srv/data" "" = "/srv/data".
Proof.
  split; [| split].
  - apply (subtree_map_posix true ["srv"; "data"] ["maps"; "a.txt"]);
      apply plain_names_decided; vm_compute; reflexivity.
  - apply (subtree_map_posix false [] ["maps"; "a.txt"]);
      apply plain_names_decided; vm_compute; reflexivity.
  - apply (subtree_map_posix true ["srv"; "data"] []);
      apply plain_names_decided; vm_compute; reflexivity.
Defined.

